(** * HECS-CPS-Sim: a shallow embedding of the simulation kernel and of the
    protection and VPP frequency-response subsystems, with the properties
    the specification states about them.

    Layout: Part I holds the model (one module per source file), Part II the
    lemmas and theorems.

    Numbers.  A C++ [double] is a binary64 value: it is modelled by Rocq's
    primitive [float], whose operations are the IEEE 754 ones (NaN, signed
    zeros and infinities included).  [int] delays and the millisecond clock
    are modelled by [Z], a sum of two 64-bit counts being reduced to the
    64-bit range; [uint64_t] identifiers by [N]. *)

From Stdlib Require Import ZArith List Bool Floats Lia.
From stdpp Require Import base option list sorting gmap strings.

Set Warnings "-inexact-float".

(* ===================================================================== *)
(** * Part I: the model                                                   *)
(* ===================================================================== *)

(** ** <cmath> / <algorithm> on doubles *)

Module Dbl.

(** [std::max(a, b)] is [(a < b) ? b : a]. *)
Definition std_max (a b : float) : float :=
  if (a <? b)%float then b else a.

(** [std::min(a, b)] is [(b < a) ? b : a]. *)
Definition std_min (a b : float) : float :=
  if (b <? a)%float then b else a.

(** [std::abs(double)]. *)
Definition std_abs (a : float) : float := PrimFloat.abs a.

(** [lo <= x && x <= hi] on doubles. *)
Definition within (lo hi x : float) : bool :=
  (lo <=? x)%float && (x <=? hi)%float.

(** The order of two finite values of the same sign: exponent first, then
    mantissa. *)
Definition cmp_em (e1 : Z) (m1 : positive) (e2 : Z) (m2 : positive)
  : comparison :=
  match (e1 ?= e2)%Z with
  | Eq => Pos.compare_cont Eq m1 m2
  | Lt => Lt
  | Gt => Gt
  end.

End Dbl.

(** ** ecs_core.h *)

Module Ecs.

(** [using Entity = uint64_t]. *)
Definition Entity : Type := N.

Definition uint64_max : N := 18446744073709551615%N.

(** The concrete component classes of the program, and the abstract base
    [ProtectiveComp].  [typeid(Comp).hash_code()] is the key of the outer
    map of the registry; it is modelled by the class itself (distinct
    classes, distinct keys). *)
Inductive CompType : Type :=
| TyProtectiveComp
| TyOverCurrentProtection
| TyDistanceProtection
| TyPhysicalStateComponent
| TyFrequencyControlConfigComponent.

#[global] Instance CompType_eq_dec : EqDecision CompType.
Proof. solve_decision. Defined.

Definition CompType_code (t : CompType) : nat :=
  match t with
  | TyProtectiveComp => 0
  | TyOverCurrentProtection => 1
  | TyDistanceProtection => 2
  | TyPhysicalStateComponent => 3
  | TyFrequencyControlConfigComponent => 4
  end.

Definition CompType_of_code (n : nat) : CompType :=
  match n with
  | 0 => TyProtectiveComp
  | 1 => TyOverCurrentProtection
  | 2 => TyDistanceProtection
  | 3 => TyPhysicalStateComponent
  | _ => TyFrequencyControlConfigComponent
  end.

#[global] Instance CompType_countable : Countable CompType.
Proof.
  apply (inj_countable' CompType_code CompType_of_code).
  intros []; reflexivity.
Defined.

Section Registry.

(** The registry owns [IComponent]s; [Comp] is the type of the stored
    objects. *)
Context {Comp : Type}.

Record Registry : Type := mkRegistry {
  last_id_ : Entity;
  components_ : gmap CompType (gmap Entity Comp)
}.

Definition Registry_new : Registry :=
  {| last_id_ := 0%N; components_ := ∅ |}.

(** [Entity create() { return ++last_id_; }] *)
Definition create (r : Registry) : Entity * Registry :=
  let id := ((last_id_ r + 1) mod (uint64_max + 1))%N in
  (id, {| last_id_ := id; components_ := components_ r |}).

(** [n] calls of [create()], one after the other (what the set-up loops
    of [main] do between two of them does not touch [last_id_]): the
    identifiers returned, in order, and the registry left. *)
Fixpoint create_many (n : nat) (r : Registry) : list Entity * Registry :=
  match n with
  | O => ([], r)
  | S k =>
      let er := create r in
      let rest := create_many k (snd er) in
      (fst er :: fst rest, snd rest)
  end.

(** [components_[typeid(Comp).hash_code()][e] = std::move(ptr);] *)
Definition emplace (ty : CompType) (e : Entity) (c : Comp) (r : Registry)
  : Registry :=
  let inner := default ∅ (components_ r !! ty) in
  {| last_id_ := last_id_ r;
     components_ := <[ty := <[e := c]> inner]> (components_ r) |}.

(** [Comp* get(Entity e)]: [None] is [nullptr]. *)
Definition get (ty : CompType) (e : Entity) (r : Registry) : option Comp :=
  match components_ r !! ty with
  | None => None
  | Some inner => inner !! e
  end.

(** [for_each<Comp>(fn)]: the [(entity, component)] pairs [fn] is called
    on.  The inner map is a [std::unordered_map], whose iteration order is
    unspecified; the model lists the pairs in the order of its own map, and
    what is proved of [for_each] for every registry does not depend on the
    order. *)
Definition for_each (ty : CompType) (r : Registry) : list (Entity * Comp) :=
  match components_ r !! ty with
  | None => []
  | Some inner => map_to_list inner
  end.

End Registry.

Arguments Registry : clear implicits.

End Ecs.

(** ** simulation_events_and_data.h *)

Module Events.
Import Ecs.

(** [using EventId = uint64_t]. *)
Definition EventId : Type := N.

Definition GENERATOR_READY_EVENT : EventId := 1%N.
Definition LOAD_CHANGE_EVENT : EventId := 2%N.
Definition BREAKER_OPENED_EVENT : EventId := 6%N.
Definition STABILITY_CONCERN_EVENT : EventId := 7%N.
Definition LOAD_SHED_REQUEST_EVENT : EventId := 8%N.
Definition POWER_ADJUST_REQUEST_EVENT : EventId := 9%N.
Definition FAULT_INFO_EVENT_PROT : EventId := 100%N.
Definition ENTITY_TRIP_EVENT_PROT : EventId := 101%N.
Definition FREQUENCY_UPDATE_EVENT : EventId := 200%N.

Record FaultInfo : Type := mkFaultInfo {
  current_kA : float;
  voltage_kV : float;
  impedance_Ohm : float;
  distance_km : float;
  faulty_entity_id : Entity
}.

(** The default member initialisers of [FaultInfo]. *)
Definition FaultInfo_default : FaultInfo :=
  {| current_kA := 0; voltage_kV := 220; impedance_Ohm := 0;
     distance_km := 0; faulty_entity_id := 0%N |}.

Definition set_impedance_Ohm (z : float) (f : FaultInfo) : FaultInfo :=
  {| current_kA := current_kA f; voltage_kV := voltage_kV f;
     impedance_Ohm := z; distance_km := distance_km f;
     faulty_entity_id := faulty_entity_id f |}.

(** The guard of [calculate_impedance_if_needed]:
    [impedance_Ohm == 0.0 && voltage_kV > 0 && current_kA > 0]. *)
Definition impedance_needed (f : FaultInfo) : bool :=
  (impedance_Ohm f =? 0)%float && (0 <? voltage_kV f)%float
  && (0 <? current_kA f)%float.

(** [impedance_Ohm = (voltage_kV * 1000.0) / (current_kA * 1000.0);] *)
Definition calculate_impedance_if_needed (f : FaultInfo) : FaultInfo :=
  if impedance_needed f
  then set_impedance_Ohm
         ((voltage_kV f * 1000) / (current_kA f * 1000))%float f
  else f.

Record FrequencyInfo : Type := mkFrequencyInfo {
  current_sim_time_seconds : float;
  freq_deviation_hz : float
}.

End Events.

(** ** cps_coro_lib.h *)

Module Coro.
Import Events.

(** [Scheduler::time_point] and [Scheduler::duration]: a count of
    milliseconds, which the source holds in a signed 64-bit integer. *)
Definition time_point : Type := Z.
Definition duration : Type := Z.

Bind Scope Z_scope with time_point duration.

Definition int64_min : Z := (-9223372036854775808)%Z.
Definition int64_max : Z := 9223372036854775807%Z.

(** A count that a signed 64-bit integer holds. *)
Definition representable (z : Z) : Prop := (int64_min <= z <= int64_max)%Z.

(** The 64-bit two's complement value of an integer. *)
Definition wrap_int64 (z : Z) : Z :=
  ((z - int64_min) mod 18446744073709551616 + int64_min)%Z.

(** [time_point + duration] and [duration + duration]: the sum of the two
    counts as the 64-bit addition of the compiled program gives it.  (The
    language leaves the result undefined when the sum is not
    representable; the machine addition wraps around.) *)
Definition time_add (a b : Z) : Z := wrap_int64 (a + b).

(** [std::multimap::emplace]: the new entry goes after every entry whose key
    is not greater (entries with equal keys keep their insertion order). *)
Fixpoint multimap_emplace {K V : Type} (leb : K -> K -> bool) (k : K) (v : V)
  (l : list (K * V)) : list (K * V) :=
  match l with
  | [] => [(k, v)]
  | (k', v') :: rest =>
      if leb k' k then (k', v') :: multimap_emplace leb k v rest
      else (k, v) :: l
  end.

(** [c.empty()] on a container. *)
Definition is_nil {X : Type} (l : list X) : bool :=
  match l with
  | [] => true
  | _ :: _ => false
  end.

(** Keys in non-decreasing order: the order a [std::multimap] keeps. *)
Definition by_deadline {V : Type} (a b : Z * V) : Prop := (fst a <= fst b)%Z.

(** The same for [event_handlers_], whose keys are event identifiers. *)
Definition by_event_id {V : Type} (a b : EventId * V) : Prop :=
  (fst a <= fst b)%N.

Section Kernel.

(** [payload]: what the [const void*] of an event points to.
    [handle]: a [std::coroutine_handle<>], that is a suspended coroutine.
    [handler]: the code of an [EventHandler] closure.
    [M]: the memory of the client program (coroutine frames, awaiters,
    the registry, ...). *)
Context {payload handle handler M : Type}.

(** An entry of [event_handlers_].  [sink_id] is the identity of the
    multimap node (ghost: the source has no such field, a node is
    identified by its address). *)
Record sink : Type := mkSink {
  sink_id : nat;
  sink_fn : handler
}.

Record Scheduler : Type := mkScheduler {
  current_time_ : time_point;
  ready_tasks_ : list handle;
  timed_tasks_ : list (time_point * handle);
  event_handlers_ : list (EventId * sink)
}.

(** [Scheduler()]. *)
Definition Scheduler_new : Scheduler :=
  {| current_time_ := 0%Z; ready_tasks_ := []; timed_tasks_ := [];
     event_handlers_ := [] |}.

Definition now (s : Scheduler) : time_point := current_time_ s.

Definition set_time (t : time_point) (s : Scheduler) : Scheduler :=
  {| current_time_ := t; ready_tasks_ := ready_tasks_ s;
     timed_tasks_ := timed_tasks_ s;
     event_handlers_ := event_handlers_ s |}.

Definition advance_time (d : duration) (s : Scheduler) : Scheduler :=
  set_time (time_add (current_time_ s) d) s.

Definition set_ready (r : list handle) (s : Scheduler) : Scheduler :=
  {| current_time_ := current_time_ s; ready_tasks_ := r;
     timed_tasks_ := timed_tasks_ s;
     event_handlers_ := event_handlers_ s |}.

Definition set_timers (t : list (time_point * handle)) (s : Scheduler)
  : Scheduler :=
  {| current_time_ := current_time_ s; ready_tasks_ := ready_tasks_ s;
     timed_tasks_ := t; event_handlers_ := event_handlers_ s |}.

Definition set_handlers (e : list (EventId * sink)) (s : Scheduler)
  : Scheduler :=
  {| current_time_ := current_time_ s; ready_tasks_ := ready_tasks_ s;
     timed_tasks_ := timed_tasks_ s; event_handlers_ := e |}.

(** [ready_tasks_.push(handle)]. *)
Definition schedule (h : handle) (s : Scheduler) : Scheduler :=
  set_ready (ready_tasks_ s ++ [h]) s.

(** [timed_tasks_.emplace(current_time_ + delay, handle)]. *)
Definition schedule_after (delay : duration) (h : handle) (s : Scheduler)
  : Scheduler :=
  set_timers
    (multimap_emplace Z.leb (time_add (current_time_ s) delay) h
       (timed_tasks_ s)) s.

(** [event_handlers_.emplace(event_id, std::move(handler))]. *)
Definition register_event_handler (id : EventId) (f : sink) (s : Scheduler)
  : Scheduler :=
  set_handlers (multimap_emplace N.leb id f (event_handlers_ s)) s.

(** [event_handlers_.equal_range(event_id)], copied into
    [handlers_to_call]. *)
Definition equal_range (id : EventId) (s : Scheduler) : list sink :=
  snd <$> filter (fun kv => N.eqb (fst kv) id) (event_handlers_ s).

(** [event_handlers_.erase(range.first, range.second)]. *)
Definition erase_range (id : EventId) (s : Scheduler) : Scheduler :=
  set_handlers
    (filter (fun kv => negb (N.eqb (fst kv) id)) (event_handlers_ s)) s.

(** [ready_tasks_.empty() && timed_tasks_.empty() && event_handlers_.empty()]. *)
Definition is_empty (s : Scheduler) : bool :=
  is_nil (ready_tasks_ s) && is_nil (timed_tasks_ s)
  && is_nil (event_handlers_ s).

(** The loop of [run_one_step] and [run_until] that moves the due timers
    to the ready queue:
    [while (!timed_tasks_.empty() && timed_tasks_.begin()->first <= current_time_)]. *)
Fixpoint migrate_due (t : time_point) (timers : list (time_point * handle))
  (ready : list handle) : list (time_point * handle) * list handle :=
  match timers with
  | [] => ([], ready)
  | (d, h) :: rest =>
      if (d <=? t)%Z then migrate_due t rest (ready ++ [h])
      else (timers, ready)
  end.

(** The second half of [run_one_step]: jump to the earliest deadline and
    ready what is due. *)
Definition fire_timers (s : Scheduler) : Scheduler :=
  match timed_tasks_ s with
  | [] => s
  | (d, _) :: _ =>
      let s1 := set_time d s in
      let '(timers, ready) :=
        migrate_due (current_time_ s1) (timed_tasks_ s1) (ready_tasks_ s1) in
      set_ready ready (set_timers timers s1)
  end.

(** *** Client code

    What a coroutine body (from a resumption to its next suspension) or
    an event handler can do: calls of the scheduler's public interface,
    resumptions of coroutine handles, and accesses to its own memory. *)
Inductive cmd : Type :=
| CSchedule (h : handle)
| CScheduleAfter (d : duration) (h : handle)
| CRegister (id : EventId) (f : handler)
| CTrigger (id : EventId) (data : option payload)
| CSetTime (t : time_point)
| CAdvanceTime (d : duration)
| CResume (h : handle).

Inductive prog : Type :=
| Ret
| Call (c : cmd) (k : prog)
| Now (k : time_point -> prog)
| IsEmpty (k : bool -> prog)
| Load (k : M -> prog)
| Store (m : M) (k : prog).

(** The client program: the code a handle runs when resumed, the code of
    each handler, and the frame operations [done()] and [destroy()]. *)
Record Client : Type := mkClient {
  resume_code : handle -> prog;
  sink_code : handler -> option payload -> prog;
  done : handle -> M -> bool;
  destroy : handle -> M -> M
}.

(** One call of a sink by [trigger_event] (ghost): which call of
    [trigger_event] made it, which entry was called, and what
    [event_handlers_] held when the sink started. *)
Record invocation : Type := mkInvocation {
  inv_call : nat;
  inv_sink : sink;
  inv_handlers : list (EventId * sink)
}.

(** The scheduler, the client's memory, and the ghost state: the next
    node identity, the number of [trigger_event] calls so far, the log of
    sink invocations, and the log of the calls of [schedule_after] (the
    clock at the call and the delay asked for). *)
Record Machine : Type := mkMachine {
  sched : Scheduler;
  mem : M;
  next_sink : nat;
  next_call : nat;
  log : list invocation;
  timer_log : list (time_point * duration)
}.

Definition Machine_new (m : M) : Machine :=
  {| sched := Scheduler_new; mem := m; next_sink := 0; next_call := 0;
     log := []; timer_log := [] |}.

Definition on_sched (f : Scheduler -> Scheduler) (w : Machine) : Machine :=
  {| sched := f (sched w); mem := mem w; next_sink := next_sink w;
     next_call := next_call w; log := log w; timer_log := timer_log w |}.

Definition set_mem (m : M) (w : Machine) : Machine :=
  {| sched := sched w; mem := m; next_sink := next_sink w;
     next_call := next_call w; log := log w; timer_log := timer_log w |}.

(** [schedule_after] on the machine: the call is logged. *)
Definition do_schedule_after (d : duration) (h : handle) (w : Machine)
  : Machine :=
  {| sched := schedule_after d h (sched w); mem := mem w;
     next_sink := next_sink w; next_call := next_call w; log := log w;
     timer_log := timer_log w ++ [(current_time_ (sched w), d)] |}.

(** [register_event_handler] on the machine: the new node gets a fresh
    identity. *)
Definition do_register (id : EventId) (f : handler) (w : Machine) : Machine :=
  {| sched := register_event_handler id (mkSink (next_sink w) f) (sched w);
     mem := mem w; next_sink := S (next_sink w);
     next_call := next_call w; log := log w; timer_log := timer_log w |}.

(** The first half of [trigger_event]: snapshot, then erase. *)
Definition begin_trigger (id : EventId) (w : Machine) : Machine :=
  {| sched := erase_range id (sched w); mem := mem w;
     next_sink := next_sink w; next_call := S (next_call w);
     log := log w; timer_log := timer_log w |}.

Definition log_invocation (call : nat) (s : sink) (w : Machine) : Machine :=
  {| sched := sched w; mem := mem w; next_sink := next_sink w;
     next_call := next_call w;
     log := log w ++ [mkInvocation call s (event_handlers_ (sched w))];
     timer_log := timer_log w |}.

(** [for (const auto& handler_func : handlers_to_call) handler_func(data);]
    where [run] executes client code. *)
Fixpoint call_handlers (run : prog -> Machine -> option Machine)
  (sink_body : handler -> prog) (call : nat) (hs : list sink) (w : Machine)
  : option Machine :=
  match hs with
  | [] => Some w
  | s :: rest =>
      match run (sink_body (sink_fn s)) (log_invocation call s w) with
      | None => None
      | Some w' => call_handlers run sink_body call rest w'
      end
  end.

(** [trigger_event(event_id, data)] / [trigger_event(event_id)]
    ([data = None] is the null pointer of the second overload). *)
Definition trigger_event_with (run : prog -> Machine -> option Machine)
  (cl : Client) (id : EventId) (data : option payload) (w : Machine)
  : option Machine :=
  let handlers_to_call := equal_range id (sched w) in
  call_handlers run (fun f => sink_code cl f data) (next_call w)
    handlers_to_call (begin_trigger id w).

(** The interpreter of client code.  Client code may not terminate (a
    handler can trigger the event it re-subscribes to), so the
    interpreter takes a bound on the nesting of its steps; [None] means
    that the bound was reached. *)
Fixpoint exec (cl : Client) (fuel : nat) (p : prog) (w : Machine)
  {struct fuel} : option Machine :=
  match fuel with
  | O => None
  | S n =>
      match p with
      | Ret => Some w
      | Now k => exec cl n (k (now (sched w))) w
      | IsEmpty k => exec cl n (k (is_empty (sched w))) w
      | Load k => exec cl n (k (mem w)) w
      | Store m k => exec cl n k (set_mem m w)
      | Call c k =>
          match
            match c with
            | CSchedule h => Some (on_sched (schedule h) w)
            | CScheduleAfter d h => Some (do_schedule_after d h w)
            | CRegister id f => Some (do_register id f w)
            | CTrigger id data => trigger_event_with (exec cl n) cl id data w
            | CSetTime t => Some (on_sched (set_time t) w)
            | CAdvanceTime d => Some (on_sched (advance_time d) w)
            | CResume h => exec cl n (resume_code cl h) w
            end
          with
          | None => None
          | Some w' => exec cl n k w'
          end
      end
  end.

Definition trigger_event (cl : Client) (fuel : nat) (id : EventId)
  (data : option payload) (w : Machine) : option Machine :=
  trigger_event_with (exec cl fuel) cl id data w.

(** [bool run_one_step()]. *)
Definition run_one_step (cl : Client) (fuel : nat) (w : Machine)
  : option (bool * Machine) :=
  match ready_tasks_ (sched w) with
  | h :: rest =>
      let w1 := on_sched (set_ready rest) w in
      if done cl h (mem w1) then Some (true, w1)
      else
        match exec cl fuel (resume_code cl h) w1 with
        | None => None
        | Some w2 => Some (true, w2)
        end
  | [] =>
      match timed_tasks_ (sched w) with
      | _ :: _ => Some (true, on_sched fire_timers w)
      | [] => Some (false, w)
      end
  end.

(** What the owner of the scheduler does between two observations of the
    clock: a call of [run_one_step], or client code of its own (creating
    tasks, triggering events). *)
Inductive action : Type :=
| ARunOneStep
| AClient (p : prog).

Definition perform (cl : Client) (fuel : nat) (a : action) (w : Machine)
  : option Machine :=
  match a with
  | ARunOneStep => snd <$> run_one_step cl fuel w
  | AClient p => exec cl fuel p w
  end.

(** The machines reached after each action of a sequence. *)
Fixpoint drive (cl : Client) (fuel : nat) (acts : list action) (w : Machine)
  : option (list Machine) :=
  match acts with
  | [] => Some []
  | a :: rest =>
      match perform cl fuel a w with
      | None => None
      | Some w' => (fun ws => w' :: ws) <$> drive cl fuel rest w'
      end
  end.

(** The inner loop of [run_until]: resume ready tasks until the queue is
    empty.  A resumed task can ready others, so the loop takes a bound. *)
Fixpoint drain_ready (cl : Client) (fuel : nat) (w : Machine)
  : option Machine :=
  match fuel with
  | O => None
  | S n =>
      match ready_tasks_ (sched w) with
      | [] => Some w
      | h :: rest =>
          let w1 := on_sched (set_ready rest) w in
          if done cl h (mem w1) then drain_ready cl n w1
          else
            match exec cl n (resume_code cl h) w1 with
            | None => None
            | Some w2 => drain_ready cl n w2
            end
      end
  end.

(** The outer loop of [run_until]. *)
Fixpoint run_until_loop (cl : Client) (fuel : nat) (end_time : time_point)
  (w : Machine) : option Machine :=
  match fuel with
  | O => None
  | S n =>
      if (now (sched w) <? end_time)%Z
         && negb (is_nil (ready_tasks_ (sched w))
                  && is_nil (timed_tasks_ (sched w)))
      then
        match drain_ready cl n w with
        | None => None
        | Some w1 =>
            match timed_tasks_ (sched w1) with
            | [] => run_until_loop cl n end_time w1
            | (next_event_time, _) :: _ =>
                if (end_time <=? next_event_time)%Z
                then Some (on_sched (set_time end_time) w1)
                else run_until_loop cl n end_time (on_sched fire_timers w1)
            end
        end
      else Some w
  end.

(** [void run_until(time_point end_time)]. *)
Definition run_until (cl : Client) (fuel : nat) (end_time : time_point)
  (w : Machine) : option Machine :=
  match run_until_loop cl fuel end_time w with
  | None => None
  | Some w1 =>
      Some (if (now (sched w1) <? end_time)%Z
            then on_sched (set_time end_time) w1 else w1)
  end.

(** *** The awaiters *)

(** [p], then [q]. *)
Fixpoint prog_seq (p q : prog) : prog :=
  match p with
  | Ret => q
  | Call c k => Call c (prog_seq k q)
  | Now k => Now (fun t => prog_seq (k t) q)
  | IsEmpty k => IsEmpty (fun b => prog_seq (k b) q)
  | Load k => Load (fun m => prog_seq (k m) q)
  | Store m k => Store m (prog_seq k q)
  end.

(** [co_await delay(d)] in a coroutine, under the active scheduler: [h] is
    the coroutine's handle at this suspension point and [k] the rest of its
    body.  [Delay::await_ready] is [delay_time_.count() <= 0]: the
    coroutine then goes on at once; otherwise [await_suspend] hands [h] to
    [schedule_after] and control returns to whoever resumed the
    coroutine. *)
Definition co_await_delay (d : duration) (h : handle) (k : prog) : prog :=
  if (d <=? 0)%Z then k else Call (CScheduleAfter d h) Ret.

(** [co_await wait_for_event<T>(id)], under the active scheduler:
    [await_ready] is [false] and [await_suspend] registers the awaiter's
    closure [f], which stores the event's data and resumes the
    coroutine. *)
Definition co_await_event (id : EventId) (f : handler) : prog :=
  Call (CRegister id f) Ret.

(** *** class Task *)

Record Task : Type := mkTask { handle_ : option handle }.

(** [void detach() { handle_ = nullptr; }], as a transition of the Task
    object and the machine. *)
Definition detach (t : Task) (w : Machine) : Task * Machine :=
  ({| handle_ := None |}, w).

(** [bool is_done() const { return !handle_ || handle_.done(); }] *)
Definition is_done (cl : Client) (t : Task) (w : Machine) : bool :=
  match handle_ t with
  | None => true
  | Some h => done cl h (mem w)
  end.

(** [~Task() { if (handle_ && !handle_.done()) handle_.destroy(); }] *)
Definition Task_destructor (cl : Client) (t : Task) (w : Machine) : Machine :=
  match handle_ t with
  | None => w
  | Some h =>
      if done cl h (mem w) then w else set_mem (destroy cl h (mem w)) w
  end.

(** [void resume() { if (handle_ && !handle_.done()) handle_.resume(); }] *)
Definition Task_resume (cl : Client) (fuel : nat) (t : Task) (w : Machine)
  : option Machine :=
  match handle_ t with
  | None => Some w
  | Some h =>
      if done cl h (mem w) then Some w
      else exec cl fuel (resume_code cl h) w
  end.

(** *** Restrictions on client code *)

(** Every scheduler call of a piece of client code satisfies [A]. *)
Inductive prog_calls (A : cmd -> Prop) : prog -> Prop :=
| pc_Ret : prog_calls A Ret
| pc_Call c k : A c -> prog_calls A k -> prog_calls A (Call c k)
| pc_Now k : (forall t, prog_calls A (k t)) -> prog_calls A (Now k)
| pc_IsEmpty k : (forall b, prog_calls A (k b)) -> prog_calls A (IsEmpty k)
| pc_Load k : (forall m, prog_calls A (k m)) -> prog_calls A (Load k)
| pc_Store m k : prog_calls A k -> prog_calls A (Store m k).

Definition client_calls (A : cmd -> Prop) (cl : Client) : Prop :=
  (forall h, prog_calls A (resume_code cl h))
  /\ (forall f data, prog_calls A (sink_code cl f data)).

(** No direct [set_time] or [advance_time], and no negative delay. *)
Definition time_safe (c : cmd) : Prop :=
  match c with
  | CSetTime _ | CAdvanceTime _ => False
  | CScheduleAfter d _ => (0 <= d)%Z
  | _ => True
  end.

(** No direct [set_time] or [advance_time]. *)
Definition no_clock_calls (c : cmd) : Prop :=
  match c with
  | CSetTime _ | CAdvanceTime _ => False
  | _ => True
  end.

Definition action_calls (A : cmd -> Prop) (a : action) : Prop :=
  match a with
  | ARunOneStep => True
  | AClient p => prog_calls A p
  end.

(** *** Invariants and relations between machines *)

(** The timers are in the multimap's order and none is overdue. *)
Definition timers_ok (s : Scheduler) : Prop :=
  StronglySorted by_deadline (timed_tasks_ s)
  /\ Forall (fun e => (now s <= fst e)%Z) (timed_tasks_ s).

(** The logged calls of [schedule_after] whose deadline, the clock at the
    call plus the delay, is a count that 64 bits hold. *)
Definition deadlines_representable (calls : list (time_point * duration))
  : Prop :=
  Forall (fun c => representable (fst c + snd c)) calls.

(** Client code that never sets the clock and never takes a negative
    delay leaves the clock alone, and keeps the timers in order with none
    overdue as long as the deadlines of the timers it makes are
    representable. *)
Definition keeps_time (w w' : Machine) : Prop :=
  now (sched w') = now (sched w)
  /\ exists calls,
       timer_log w' = timer_log w ++ calls
       /\ (deadlines_representable calls ->
           timers_ok (sched w) -> timers_ok (sched w')).

(** Client code that never sets the clock leaves it alone and keeps the
    timers in the multimap's order, whatever delays it takes. *)
Definition keeps_clock (w w' : Machine) : Prop :=
  now (sched w') = now (sched w)
  /\ (StronglySorted by_deadline (timed_tasks_ (sched w)) ->
      StronglySorted by_deadline (timed_tasks_ (sched w'))).


(** Every node of [event_handlers_] has an identity handed out before. *)
Definition sink_ids_fresh (w : Machine) : Prop :=
  Forall (fun e => sink_id (snd e) < next_sink w)
    (event_handlers_ (sched w)).

(** The entries of [hs] are entries of [old] or nodes made at or after
    identity [n0]. *)
Definition handlers_from (n0 : nat) (old hs : list (EventId * sink)) : Prop :=
  forall e, e ∈ hs -> e ∈ old \/ n0 <= sink_id (snd e).

(** What running client code from [w] to [w'] can do to the ghost state
    and to the subscriptions: the counters grow, the log is extended by
    invocations of later [trigger_event] calls, and no erased
    subscription comes back. *)
Definition extends (w w' : Machine) : Prop :=
  next_call w <= next_call w'
  /\ next_sink w <= next_sink w'
  /\ handlers_from (next_sink w) (event_handlers_ (sched w))
       (event_handlers_ (sched w'))
  /\ exists ext,
       log w' = log w ++ ext
       /\ Forall (fun i =>
                    next_call w <= inv_call i
                    /\ handlers_from (next_sink w)
                         (event_handlers_ (sched w)) (inv_handlers i)) ext.

(** Every machine a run reaches has fresh node identities. *)
Definition keeps_fresh (w w' : Machine) : Prop :=
  next_sink w <= next_sink w' /\ (sink_ids_fresh w -> sink_ids_fresh w').


(** The identities of the nodes [event_handlers_] holds, and of the nodes
    whose sink has been called so far (ghost). *)
Definition subscribed (w : Machine) : list nat :=
  (fun e => sink_id (snd e)) <$> event_handlers_ (sched w).

Definition invoked (w : Machine) : list nat :=
  (fun i => sink_id (inv_sink i)) <$> log w.

(** No node identity occurs twice among the nodes a running
    [trigger_event] has still to call ([pending]), the nodes of the map
    and the nodes called so far; all were handed out before. *)
Definition one_shot_inv (pending : list nat) (w : Machine) : Prop :=
  NoDup (pending ++ subscribed w ++ invoked w)
  /\ Forall (fun n => n < next_sink w) (pending ++ subscribed w ++ invoked w).

Definition keeps_one_shot (w w' : Machine) : Prop :=
  forall pending, one_shot_inv pending w -> one_shot_inv pending w'.

End Kernel.

Arguments sink : clear implicits.
Arguments Scheduler : clear implicits.
Arguments cmd : clear implicits.
Arguments prog : clear implicits.
Arguments Client : clear implicits.
Arguments invocation : clear implicits.
Arguments Machine : clear implicits.
Arguments action : clear implicits.
Arguments Task : clear implicits.

End Coro.

(** ** frequency_system.h: the component classes *)

Module FrequencyH.

Record PhysicalStateComponent : Type := mkPhysicalState {
  current_power_kW : float;
  soc : float
}.

Inductive DeviceType : Type := EV_PILE | ESS_UNIT.

Record FrequencyControlConfigComponent : Type := mkFrequencyControlConfig {
  type : DeviceType;
  base_power_kW : float;
  gain_kW_per_Hz : float;
  deadband_Hz : float;
  max_output_kW : float;
  min_output_kW : float;
  soc_min_threshold : float;
  soc_max_threshold : float
}.

End FrequencyH.

(** ** protection_system.h and the component methods of protection_system.cpp *)

Module ProtectionH.
Import Ecs Events.

Record OverCurrentProtection : Type := mkOverCurrentProtection {
  pickup_current_kA_ : float;
  fixed_delay_ms_ : Z;
  stage_name_ : string
}.

Record DistanceProtection : Type := mkDistanceProtection {
  z_set_ : list float;
  t_ms_ : list Z
}.

(** [DistanceProtection(z1_ohm, t1_ms, z2_ohm, t2_ms, z3_ohm, t3_ms)]. *)
Definition DistanceProtection_new (z1 : float) (t1 : Z) (z2 : float) (t2 : Z)
  (z3 : float) (t3 : Z) : DistanceProtection :=
  {| z_set_ := [z1; z2; z3]; t_ms_ := [t1; t2; t3] |}.

(** [z_set_[i]] and [t_ms_[i]]; the constructor builds vectors of three
    elements and the methods read the indices 0, 1 and 2 only. *)
Definition z_at (d : DistanceProtection) (i : nat) : float :=
  nth i (z_set_ d) 0%float.

Definition t_at (d : DistanceProtection) (i : nat) : Z :=
  nth i (t_ms_ d) 0%Z.

(** [return fault_data.current_kA >= pickup_current_kA_;] *)
Definition OverCurrentProtection_pick_up (p : OverCurrentProtection)
  (fault_data : FaultInfo) (self_entity_id : Entity) : bool :=
  (pickup_current_kA_ p <=? current_kA fault_data)%float.

Definition OverCurrentProtection_trip_delay_ms (p : OverCurrentProtection)
  (fault_data : FaultInfo) : Z :=
  fixed_delay_ms_ p.

(** The test [fault_data.faulty_entity_id != self_entity_id &&
    fault_data.faulty_entity_id != 0]. *)
Definition fault_elsewhere (fault_data : FaultInfo) (self_entity_id : Entity)
  : bool :=
  negb (N.eqb (faulty_entity_id fault_data) self_entity_id)
  && negb (N.eqb (faulty_entity_id fault_data) 0).

Definition DistanceProtection_pick_up (p : DistanceProtection)
  (fault_data : FaultInfo) (self_entity_id : Entity) : bool :=
  if fault_elsewhere fault_data self_entity_id
  then (impedance_Ohm fault_data <=? z_at p 2)%float
  else (impedance_Ohm fault_data <=? z_at p 0)%float
       || (impedance_Ohm fault_data <=? z_at p 1)%float
       || (impedance_Ohm fault_data <=? z_at p 2)%float.

Definition DistanceProtection_trip_delay_ms (p : DistanceProtection)
  (fault_data : FaultInfo) : Z :=
  if (impedance_Ohm fault_data <=? z_at p 0)%float then t_at p 0
  else if (impedance_Ohm fault_data <=? z_at p 1)%float then t_at p 1
  else if (impedance_Ohm fault_data <=? z_at p 2)%float then t_at p 2
  else 99999%Z.

(** The objects whose class derives from [ProtectiveComp], and the virtual
    dispatch of its three methods. *)
Inductive ProtectiveComp : Type :=
| OverCurrent (p : OverCurrentProtection)
| Distance (p : DistanceProtection).

Definition pick_up (c : ProtectiveComp) (fault_data : FaultInfo)
  (self_entity_id : Entity) : bool :=
  match c with
  | OverCurrent p => OverCurrentProtection_pick_up p fault_data self_entity_id
  | Distance p => DistanceProtection_pick_up p fault_data self_entity_id
  end.

Definition trip_delay_ms (c : ProtectiveComp) (fault_data : FaultInfo) : Z :=
  match c with
  | OverCurrent p => OverCurrentProtection_trip_delay_ms p fault_data
  | Distance p => DistanceProtection_trip_delay_ms p fault_data
  end.

Definition name (c : ProtectiveComp) : string :=
  match c with
  | OverCurrent p => stage_name_ p
  | Distance _ => "DIST"
  end.

End ProtectionH.

(** ** The objects the registry of the program owns *)

Module World.
Import Ecs FrequencyH ProtectionH.

(** An [IComponent] of the program, by its dynamic class. *)
Inductive Component : Type :=
| CProtective (p : ProtectiveComp)
| CPhysicalState (s : PhysicalStateComponent)
| CFrequencyControlConfig (c : FrequencyControlConfigComponent).

(** [typeid(Comp)] for the class an object is constructed as: the key
    [emplace<Comp>] files it under. *)
Definition class_of (c : Component) : CompType :=
  match c with
  | CProtective (OverCurrent _) => TyOverCurrentProtection
  | CProtective (Distance _) => TyDistanceProtection
  | CPhysicalState _ => TyPhysicalStateComponent
  | CFrequencyControlConfig _ => TyFrequencyControlConfigComponent
  end.

(** [registry.emplace<Comp>(e, args...)] for a concrete class [Comp]. *)
Definition emplace_as (e : Entity) (c : Component) (r : Registry Component)
  : Registry Component :=
  emplace (class_of c) e c r.

(** The [static_cast<ProtectiveComp&>] of a stored object. *)
Definition as_ProtectiveComp (c : Component) : option ProtectiveComp :=
  match c with
  | CProtective p => Some p
  | _ => None
  end.

(** [registry.get<PhysicalStateComponent>(e)]. *)
Definition get_PhysicalState (e : Entity) (r : Registry Component)
  : option PhysicalStateComponent :=
  match get TyPhysicalStateComponent e r with
  | Some (CPhysicalState s) => Some s
  | _ => None
  end.

(** [registry.get<FrequencyControlConfigComponent>(e)]. *)
Definition get_FrequencyControlConfig (e : Entity) (r : Registry Component)
  : option FrequencyControlConfigComponent :=
  match get TyFrequencyControlConfigComponent e r with
  | Some (CFrequencyControlConfig c) => Some c
  | _ => None
  end.

(** A write through the pointer [get<PhysicalStateComponent>(e)] returned. *)
Definition put_PhysicalState (e : Entity) (s : PhysicalStateComponent)
  (r : Registry Component) : Registry Component :=
  emplace TyPhysicalStateComponent e (CPhysicalState s) r.

(** The registries a program can build: [create] and [emplace<Comp>] for
    the concrete classes ([ProtectiveComp] is abstract, so
    [emplace<ProtectiveComp>] does not compile). *)
Inductive built : Registry Component -> Prop :=
| built_new : built Registry_new
| built_create r : built r -> built (snd (create r))
| built_emplace r e c : built r -> built (emplace_as e c r).

End World.

(** ** protection_system.cpp: the protection engine *)

Module ProtectionSystem.
Import Ecs Events Coro ProtectionH World.

(** The arguments of one call of [trip_later]. *)
Record TripLater : Type := mkTripLater {
  protected_entity_id : Entity;
  delay_ms : Z;
  protection_name : string;
  actual_faulty_entity_id : Entity
}.

(** The body of the lambda [run] passes to [for_each<ProtectiveComp>]:
    the sub-task it spawns for one visited component, if any. *)
Definition visit (fault_data : FaultInfo) (entry : Entity * Component)
  : list TripLater :=
  match as_ProtectiveComp (snd entry) with
  | None => []
  | Some comp =>
      if pick_up comp fault_data (fst entry)
      then [ {| protected_entity_id := fst entry;
                delay_ms := trip_delay_ms comp fault_data;
                protection_name := name comp;
                actual_faulty_entity_id := faulty_entity_id fault_data |} ]
      else []
  end.

(** One iteration of the loop of [ProtectionSystem::run], from the
    resumption by the fault event to the next [co_await]: the calls of
    [trip_later] it makes, in order. *)
Definition run_iteration (registry_ : Registry Component)
  (received : FaultInfo) : list TripLater :=
  let fault_data := calculate_impedance_if_needed received in
  flat_map (visit fault_data) (for_each TyProtectiveComp registry_).

(** What the specification expects of one iteration: every protective
    component stored in the registry, whatever concrete class it was
    emplaced as. *)
Definition stored_protective (registry_ : Registry Component)
  : list (Entity * Component) :=
  for_each TyOverCurrentProtection registry_
  ++ for_each TyDistanceProtection registry_.

Definition expected_iteration (registry_ : Registry Component)
  (received : FaultInfo) : list TripLater :=
  let fault_data := calculate_impedance_if_needed received in
  flat_map (visit fault_data) (stored_protective registry_).

(** [main]: the protection entities.  [Entity line1_prot =
    registry.create();] and its two [emplace]s, then the transformer. *)
Definition main_line1 : Entity * Registry Component := create Registry_new.

Definition line1_prot : Entity := fst main_line1.

Definition main_with_line1 : Registry Component :=
  emplace_as line1_prot
    (CProtective (Distance (DistanceProtection_new 5 0 15 300 25 700)))
    (emplace_as line1_prot
       (CProtective (OverCurrent (mkOverCurrentProtection 5 200 "OC-L1P-Fast")))
       (snd main_line1)).

Definition main_transformer1 : Entity * Registry Component :=
  create main_with_line1.

Definition transformer1_prot : Entity := fst main_transformer1.

Definition main_registry : Registry Component :=
  emplace_as transformer1_prot
    (CProtective (OverCurrent (mkOverCurrentProtection 2.5 300 "OC-T1P-Main")))
    (snd main_transformer1).

(** [faultInjectorTask_prot]: the first fault. *)
Definition fault1 (line1_id : Entity) : FaultInfo :=
  {| current_kA := 15; voltage_kV := 220;
     impedance_Ohm := (220 / 15) * 0.8; distance_km := 10;
     faulty_entity_id := line1_id |}.

(** [faultInjectorTask_prot]: the second fault; its impedance is derived
    before the injection. *)
Definition fault2 (transformer1_id : Entity) : FaultInfo :=
  calculate_impedance_if_needed
    {| current_kA := 3; voltage_kV := 220; impedance_Ohm := 0;
       distance_km := 0; faulty_entity_id := transformer1_id |}.

End ProtectionSystem.

(** ** protection_system.cpp and main.cpp: the protection tasks as a client
    of the scheduler *)

Module ProtectionProgram.
Import Ecs Events Coro ProtectionH World ProtectionSystem.

(** The events of the protection tasks carry a [FaultInfo] or an
    [Entity]. *)
Inductive Payload : Type :=
| PFaultInfo (f : FaultInfo)
| PEntity (e : Entity).

(** The suspended coroutines, by the suspension point they wait at. *)
Inductive Frame : Type :=
| RunAwaitingFault
| TripLaterInDelay (t : TripLater)
| InjectorInDelay (n : nat)
| BreakerAwaitingTrip (e : Entity)
| BreakerInDelay (e : Entity).

(** The closures of the two kinds of awaiter: [run]'s
    [EventAwaiter<FaultInfo>] and the [EventAwaiter<Entity>] of the breaker
    agent of an entity. *)
Inductive Handler : Type :=
| FaultAwaiter
| TripAwaiter (e : Entity).

(** The lines of the console log that report protection events, with the
    simulation time they print. *)
Inductive Line : Type :=
| Injecting (t : time_point) (n : nat) (e : Entity)
| FaultReceived (t : time_point) (faulty : Entity)
| PickedUp (t : time_point) (stage : string) (e : Entity) (delay : Z)
| Tripping (t : time_point) (stage : string) (e : Entity) (faulty : Entity)
| TripForSelf (t : time_point) (e : Entity)
| BreakerOpened (t : time_point) (e : Entity).

(** The registry, the [event_data_] of the awaiters, and the console. *)
Record Memory : Type := mkMemory {
  registry_ : Registry Component;
  fault_event_data_ : FaultInfo;
  trip_event_data_ : gmap Entity Entity;
  console : list Line
}.

Definition code : Type := prog Payload Frame Handler Memory.

(** [g_console_logger->info(...)] with the current simulation time. *)
Definition say (l : time_point -> Line) (k : code) : code :=
  Now (fun t =>
    Load (fun m =>
      Store (mkMemory (registry_ m) (fault_event_data_ m) (trip_event_data_ m)
               (console m ++ [l t])) k)).

(** [trip_later] after its delay: the log line, then the [EntityTrip]
    event with the protected entity's id. *)
Definition trip_later_rest (t : TripLater) : code :=
  say (fun now => Tripping now (protection_name t) (protected_entity_id t)
                    (actual_faulty_entity_id t))
    (Call (CTrigger ENTITY_TRIP_EVENT_PROT
             (Some (PEntity (protected_entity_id t)))) Ret).

(** A call of [trip_later]: the coroutine runs eagerly up to
    [co_await delay(duration(delay_ms))]. *)
Definition trip_later (t : TripLater) : code :=
  co_await_delay (delay_ms t) (TripLaterInDelay t) (trip_later_rest t).

(** The body of the lambda of [run] for the components it picks up: the
    log line, the call of [trip_later], and [detach]. *)
Fixpoint spawn_all (trips : list TripLater) (k : code) : code :=
  match trips with
  | [] => k
  | t :: rest =>
      say (fun now => PickedUp now (protection_name t) (protected_entity_id t)
                        (delay_ms t))
        (prog_seq (trip_later t) (spawn_all rest k))
  end.

(** [ProtectionSystem::run] from the delivery of a fault to the next
    [co_await].  [iteration] is the list of [trip_later] calls the loop over
    the registry makes: [run_iteration] in the source. *)
Definition run_resume
  (iteration : Registry Component -> FaultInfo -> list TripLater) : code :=
  Load (fun m =>
    say (fun now => FaultReceived now (faulty_entity_id (fault_event_data_ m)))
      (spawn_all (iteration (registry_ m) (fault_event_data_ m))
         (co_await_event FAULT_INFO_EVENT_PROT FaultAwaiter))).

(** [ProtectionSystem::run] up to its first [co_await]. *)
Definition run_start : code :=
  co_await_event FAULT_INFO_EVENT_PROT FaultAwaiter.

(** [faultInjectorTask_prot] after its [n]-th delay. *)
Definition injector_resume (line1_id transformer1_id : Entity) (n : nat) : code :=
  match n with
  | 0 =>
      say (fun now => Injecting now 1 line1_id)
        (Call (CTrigger FAULT_INFO_EVENT_PROT
                 (Some (PFaultInfo (fault1 line1_id))))
           (co_await_delay 7000%Z (InjectorInDelay 1) Ret))
  | _ =>
      say (fun now => Injecting now 2 transformer1_id)
        (Call (CTrigger FAULT_INFO_EVENT_PROT
                 (Some (PFaultInfo (fault2 transformer1_id)))) Ret)
  end.

Definition injector_start : code :=
  co_await_delay 6000%Z (InjectorInDelay 0) Ret.

(** [circuitBreakerAgentTask_prot] of entity [e], resumed by a trip event:
    the test [tripped_entity_id == associated_entity_id]. *)
Definition breaker_on_trip (e : Entity) : code :=
  Load (fun m =>
    if N.eqb (default 0%N (trip_event_data_ m !! e)) e
    then say (fun now => TripForSelf now e)
           (co_await_delay 100%Z (BreakerInDelay e) Ret)
    else co_await_event ENTITY_TRIP_EVENT_PROT (TripAwaiter e)).

(** The same agent after its operating delay of 100 ms. *)
Definition breaker_after_delay (e : Entity) : code :=
  say (fun now => BreakerOpened now e)
    (Call (CTrigger BREAKER_OPENED_EVENT (Some (PEntity e)))
       (co_await_event ENTITY_TRIP_EVENT_PROT (TripAwaiter e))).

Definition breaker_start (e : Entity) : code :=
  co_await_event ENTITY_TRIP_EVENT_PROT (TripAwaiter e).

(** What [await_resume] returns after the closure
    [if (data) event_data_ = *data; h.resume();] has run: the payload, or,
    when [data] is null, the value-initialised [event_data_ {}] of the
    awaiter, which each [co_await] makes anew.  A payload of the wrong type
    does not occur (the ids and the payload types of the triggers match the
    awaiters'); the model treats it as a null one. *)
Definition received_FaultInfo (data : option Payload) : FaultInfo :=
  match data with
  | Some (PFaultInfo f) => f
  | _ => FaultInfo_default
  end.

Definition received_Entity (data : option Payload) : Entity :=
  match data with
  | Some (PEntity x) => x
  | _ => 0%N
  end.

Definition fault_awaiter (data : option Payload) : code :=
  Load (fun m =>
    Store (mkMemory (registry_ m) (received_FaultInfo data)
             (trip_event_data_ m) (console m))
      (Call (CResume RunAwaitingFault) Ret)).

Definition trip_awaiter (e : Entity) (data : option Payload) : code :=
  Load (fun m =>
    Store (mkMemory (registry_ m) (fault_event_data_ m)
             (<[e := received_Entity data]> (trip_event_data_ m)) (console m))
      (Call (CResume (BreakerAwaitingTrip e)) Ret)).

(** The protection tasks of [main].  A frame in a queue of the scheduler is
    suspended, so [done()] is false for it. *)
Definition protection_client
  (iteration : Registry Component -> FaultInfo -> list TripLater)
  : Client Payload Frame Handler Memory :=
  {| resume_code := fun h =>
       match h with
       | RunAwaitingFault => run_resume iteration
       | TripLaterInDelay t => trip_later_rest t
       | InjectorInDelay n => injector_resume line1_prot transformer1_prot n
       | BreakerAwaitingTrip e => breaker_on_trip e
       | BreakerInDelay e => breaker_after_delay e
       end;
     sink_code := fun f data =>
       match f with
       | FaultAwaiter => fault_awaiter data
       | TripAwaiter e => trip_awaiter e data
       end;
     done := fun _ _ => false;
     destroy := fun _ m => m |}.

(** [main]: the four protection tasks are created in this order and
    detached. *)
Definition main_tasks : list (action Payload Frame Handler Memory) :=
  [ AClient run_start; AClient injector_start;
    AClient (breaker_start line1_prot);
    AClient (breaker_start transformer1_prot) ].

Definition main_memory : Memory :=
  {| registry_ := main_registry; fault_event_data_ := FaultInfo_default;
     trip_event_data_ := ∅; console := [] |}.

(** [main] for the protection tasks: creation, then
    [run_until(70000 ms)]; the result is the console. *)
Definition main_console
  (iteration : Registry Component -> FaultInfo -> list TripLater) (fuel : nat)
  : option (list Line) :=
  match drive (protection_client iteration) fuel main_tasks
          (Machine_new main_memory) with
  | None => None
  | Some ws =>
      console <$> (mem <$> run_until (protection_client iteration) fuel 70000%Z
                             (List.last ws (Machine_new main_memory)))
  end.

End ProtectionProgram.

(** ** frequency_system.cpp: the VPP frequency-response task *)

Module Vpp.
Import Ecs Events FrequencyH World Dbl.
Local Open Scope float_scope.

(** The locals of [vppFrequencyResponseTask] that live across iterations. *)
Record VppState : Type := mkVppState {
  last_processed_event_time_s : float;
  vpp_instance_last_full_update_time_s : float;
  vpp_instance_last_full_update_freq_dev_hz : float
}.

Definition VppState_init : VppState :=
  {| last_processed_event_time_s := -1;
     vpp_instance_last_full_update_time_s := -1;
     vpp_instance_last_full_update_freq_dev_hz := 0 |}.

Definition FREQUENCY_CHANGE_THRESHOLD_HZ : float := 0.01.
Definition TIME_THRESHOLD_SECONDS : float := 1.

(** The dedupe test:
    [current_sim_time_seconds <= last_processed_event_time_s]. *)
Definition stale (s : VppState) (info : FrequencyInfo) : bool :=
  current_sim_time_seconds info <=? last_processed_event_time_s s.

(** The gating block: [(perform_full_update, dt_since_last_full_update)]. *)
Definition gating (s : VppState) (info : FrequencyInfo) : bool * float :=
  if vpp_instance_last_full_update_time_s s <? 0 then (true, 0)
  else
    let dt0 := current_sim_time_seconds info
               - vpp_instance_last_full_update_time_s s in
    let dt := if dt0 <? 0 then 0 else dt0 in
    let freq_diff_abs :=
      std_abs (freq_deviation_hz info
               - vpp_instance_last_full_update_freq_dev_hz s) in
    ((FREQUENCY_CHANGE_THRESHOLD_HZ <? freq_diff_abs)
     || (TIME_THRESHOLD_SECONDS <=? dt), dt).

(** The device-kind default capacity in kWh. *)
Definition typical_capacity_kWh (t : DeviceType) : float :=
  match t with
  | EV_PILE => 50
  | ESS_UNIT => 2000
  end.

(** The SOC integration block. *)
Definition integrate_soc (last_full_update_time_s dt : float)
  (config : FrequencyControlConfigComponent) (state : PhysicalStateComponent)
  : PhysicalStateComponent :=
  if (0 <=? last_full_update_time_s) && (0.000001 <? dt) then
    let power_during_last_interval := current_power_kW state in
    let energy_change_kWh := power_during_last_interval * (dt / 3600) in
    let cap := typical_capacity_kWh (type config) in
    let soc1 := if 0 <? cap then soc state - energy_change_kWh / cap
                else soc state in
    {| current_power_kW := current_power_kW state;
       soc := std_max 0 (std_min 1 soc1) |}
  else state.

(** [new_calculated_power_kW] before the limits are applied. *)
Definition computed_power (config : FrequencyControlConfigComponent)
  (soc_now : float) (current_actual_freq_dev : float) : float :=
  let new_calculated_power_kW := base_power_kW config in
  let current_abs_actual_freq_dev := std_abs current_actual_freq_dev in
  if deadband_Hz config <? current_abs_actual_freq_dev then
    if current_actual_freq_dev <? 0 then
      let effective_df_drop := current_actual_freq_dev + deadband_Hz config in
      match type config with
      | EV_PILE =>
          if soc_min_threshold config <=? soc_now
          then - gain_kW_per_Hz config * effective_df_drop
          else if base_power_kW config <? 0 then 0
          else new_calculated_power_kW
      | ESS_UNIT => - gain_kW_per_Hz config * effective_df_drop
      end
    else
      let effective_df_rise := current_actual_freq_dev - deadband_Hz config in
      let power_change_due_to_freq :=
        - gain_kW_per_Hz config * effective_df_rise in
      base_power_kW config + power_change_due_to_freq
  else new_calculated_power_kW.

(** The clamp to [[min_output_kW, max_output_kW]]. *)
Definition clamp_power (config : FrequencyControlConfigComponent) (p : float)
  : float :=
  std_max (min_output_kW config) (std_min (max_output_kW config) p).

(** The EV SOC guard that follows the clamp. *)
Definition soc_guard (config : FrequencyControlConfigComponent)
  (soc_now : float) (p : float) : float :=
  match type config with
  | EV_PILE =>
      let p1 := if (p <? 0) && (soc_max_threshold config <=? soc_now)
                then 0 else p in
      if (0 <? p1) && (soc_now <=? soc_min_threshold config) then 0 else p1
  | ESS_UNIT => p
  end.

(** The body of the loop over [managed_entities] for one device that has
    both components. *)
Definition update_device (last_full_update_time_s dt : float)
  (info : FrequencyInfo) (config : FrequencyControlConfigComponent)
  (state : PhysicalStateComponent) : PhysicalStateComponent :=
  let state1 := integrate_soc last_full_update_time_s dt config state in
  let p := computed_power config (soc state1) (freq_deviation_hz info) in
  let p := clamp_power config p in
  let p := soc_guard config (soc state1) p in
  {| current_power_kW := p; soc := soc state1 |}.

(** One iteration of [for (Entity entity_id : managed_entities)]. *)
Definition update_entity (last_full_update_time_s dt : float)
  (info : FrequencyInfo) (registry : Registry Component) (entity_id : Entity)
  : Registry Component :=
  match get_FrequencyControlConfig entity_id registry,
        get_PhysicalState entity_id registry with
  | Some config, Some state =>
      put_PhysicalState entity_id
        (update_device last_full_update_time_s dt info config state) registry
  | _, _ => registry
  end.

Definition full_update (last_full_update_time_s dt : float)
  (info : FrequencyInfo) (managed_entities : list Entity)
  (registry : Registry Component) : Registry Component :=
  fold_left (update_entity last_full_update_time_s dt info)
    managed_entities registry.

(** What one delivery of a [FrequencyInfo] did. *)
Inductive outcome : Type :=
| Discarded
| Skipped
| FullUpdate.

(** One iteration of the [while (true)] of [vppFrequencyResponseTask]: from
    the delivery of the event to the next [co_await]. *)
Definition on_frequency_update (managed_entities : list Entity)
  (info : FrequencyInfo) (st : VppState * Registry Component)
  : outcome * (VppState * Registry Component) :=
  let '(s, registry) := st in
  if stale s info then (Discarded, (s, registry))
  else
    let s1 := {| last_processed_event_time_s := current_sim_time_seconds info;
                 vpp_instance_last_full_update_time_s :=
                   vpp_instance_last_full_update_time_s s;
                 vpp_instance_last_full_update_freq_dev_hz :=
                   vpp_instance_last_full_update_freq_dev_hz s |} in
    let '(perform_full_update, dt) := gating s1 info in
    if perform_full_update then
      let registry' :=
        full_update (vpp_instance_last_full_update_time_s s1) dt info
          managed_entities registry in
      (FullUpdate,
       ({| last_processed_event_time_s := last_processed_event_time_s s1;
           vpp_instance_last_full_update_time_s :=
             current_sim_time_seconds info;
           vpp_instance_last_full_update_freq_dev_hz :=
             freq_deviation_hz info |}, registry'))
    else (Skipped, (s1, registry)).

(** The deliveries of a list of events, in order: the outcomes and the
    final state. *)
Fixpoint deliver (managed_entities : list Entity) (infos : list FrequencyInfo)
  (st : VppState * Registry Component)
  : list outcome * (VppState * Registry Component) :=
  match infos with
  | [] => ([], st)
  | info :: rest =>
      let '(o, st1) := on_frequency_update managed_entities info st in
      let '(os, st2) := deliver managed_entities rest st1 in
      (o :: os, st2)
  end.

Definition is_full_update (o : outcome) : bool :=
  match o with
  | FullUpdate => true
  | _ => false
  end.

(** The number of full updates among some outcomes. *)
Definition full_updates (os : list outcome) : nat :=
  length (filter (fun o => is_full_update o = true) os).

(** Limits that are not inverted and, for an EV pile, contain 0 kW. *)
Definition limits_ok (config : FrequencyControlConfigComponent) : Prop :=
  (min_output_kW config <=? max_output_kW config) = true
  /\ (type config = EV_PILE ->
      within (min_output_kW config) (max_output_kW config) 0 = true).

(** The device [e] has both components and its stored power is inside the
    limits of its configuration. *)
Definition device_within (e : Entity) (r : Registry Component) : Prop :=
  exists config state,
    get_FrequencyControlConfig e r = Some config
    /\ get_PhysicalState e r = Some state
    /\ within (min_output_kW config) (max_output_kW config)
         (current_power_kW state) = true.

End Vpp.

(** ** test_model.cpp: the sensor and the voltage controller *)

Module TestModel.
Import Events Coro.

Definition VOLTAGE_CHANGE_EVENT : EventId := 10000%N.

Record VoltageData : Type := mkVoltageData {
  voltage : float;
  timestamp : time_point
}.

(** The two coroutine frames of [avc_test]. *)
Inductive Frame : Type := Sensor | Avc.

(** The closure [EventAwaiter<VoltageData>::await_suspend] registers for
    the AVC coroutine: it stores the event's data and resumes the frame. *)
Inductive Handler : Type := AvcAwaiter.

(** The frames' contents: the resume point of [sensor_coroutine] (the
    number of delays it has completed), [event_count] and the awaiter's
    [event_data_] of [avc_coroutine], and which frames have reached their
    final suspension or have been destroyed. *)
Record Memory : Type := mkMemory {
  sensor_pc : nat;
  sensor_done : bool;
  event_count : nat;
  event_data_ : VoltageData;
  avc_done : bool;
  destroyed : list Frame
}.

Definition Memory_init : Memory :=
  {| sensor_pc := 0; sensor_done := false; event_count := 0;
     event_data_ := mkVoltageData 0 0%Z; avc_done := false; destroyed := [] |}.

Definition code : Type := prog VoltageData Frame Handler Memory.

(** [sensor_coroutine] up to its first [co_await delay(seconds(10))]. *)
Definition sensor_start : code :=
  co_await_delay 10000%Z Sensor Ret.

(** [sensor_coroutine] from a resumption to the next suspension. *)
Definition sensor_resume : code :=
  Load (fun m =>
    match sensor_pc m with
    | 0 =>
        Now (fun t =>
          Store (mkMemory 1 (sensor_done m) (event_count m) (event_data_ m)
                   (avc_done m) (destroyed m))
            (Call (CTrigger VOLTAGE_CHANGE_EVENT (Some (mkVoltageData 0.92 t)))
               (Call (CScheduleAfter 10000%Z Sensor) Ret)))
    | 1 =>
        Now (fun t =>
          Store (mkMemory 2 (sensor_done m) (event_count m) (event_data_ m)
                   (avc_done m) (destroyed m))
            (Call (CTrigger VOLTAGE_CHANGE_EVENT (Some (mkVoltageData 1.01 t)))
               (Call (CScheduleAfter 5000%Z Sensor) Ret)))
    | _ =>
        Store (mkMemory (sensor_pc m) true (event_count m) (event_data_ m)
                 (avc_done m) (destroyed m)) Ret
    end).

(** [avc_coroutine] up to its first [co_await wait_for_event]. *)
Definition avc_start : code :=
  co_await_event VOLTAGE_CHANGE_EVENT AvcAwaiter.

(** [avc_coroutine] from a resumption: [event_count++], then the loop test
    [event_count < 2]. *)
Definition avc_resume : code :=
  Load (fun m =>
    let n := S (event_count m) in
    if (n <? 2)%nat then
      Store (mkMemory (sensor_pc m) (sensor_done m) n (event_data_ m)
               false (destroyed m))
        (Call (CRegister VOLTAGE_CHANGE_EVENT AvcAwaiter) Ret)
    else
      Store (mkMemory (sensor_pc m) (sensor_done m) n (event_data_ m)
               true (destroyed m)) Ret).

(** The closure: [if (data) event_data_ = *data; h.resume();].  Each
    [co_await] makes a new awaiter, whose [event_data_ {}] is
    value-initialised: that is what the coroutine gets when [data] is
    null. *)
Definition avc_awaiter (data : option VoltageData) : code :=
  Load (fun m =>
    Store (mkMemory (sensor_pc m) (sensor_done m) (event_count m)
             (default (mkVoltageData 0 0%Z) data) (avc_done m) (destroyed m))
      (Call (CResume Avc) Ret)).

Definition test_client : Client VoltageData Frame Handler Memory :=
  {| resume_code := fun h => match h with
                             | Sensor => sensor_resume
                             | Avc => avc_resume
                             end;
     sink_code := fun f data => match f with AvcAwaiter => avc_awaiter data end;
     done := fun h m => match h with
                        | Sensor => sensor_done m
                        | Avc => avc_done m
                        end;
     destroy := fun h m =>
                  mkMemory (sensor_pc m) (sensor_done m) (event_count m)
                    (event_data_ m) (avc_done m) (h :: destroyed m) |}.

(** [avc_test] up to its call of [run_until]: the scheduler and the two
    tasks. *)
Definition avc_test_setup : list (action VoltageData Frame Handler Memory) :=
  [AClient sensor_start; AClient avc_start].

(** The machine once the AVC coroutine waits for its first event. *)
Definition avc_waiting : Machine Frame Handler Memory :=
  do_register VOLTAGE_CHANGE_EVENT AvcAwaiter (Machine_new Memory_init).

(** [avc_test]: the two tasks, then [run_until(now() + seconds(30))]. *)
Definition avc_test (fuel : nat) : option (Machine Frame Handler Memory) :=
  match drive test_client fuel avc_test_setup (Machine_new Memory_init) with
  | None => None
  | Some ws =>
      run_until test_client fuel 30000
        (List.last ws (Machine_new Memory_init))
  end.

(** A fresh machine with the sensor's frame on a timer of 7 ms. *)
Definition one_timer : Machine Frame Handler Memory :=
  on_sched (schedule_after 7%Z Sensor) (Machine_new Memory_init).

(** The same with a second timer of the sensor at 9 ms, and then with a
    timer of the AVC frame at 7 ms, scheduled last. *)
Definition two_timers : Machine Frame Handler Memory :=
  on_sched (schedule_after 9%Z Sensor) one_timer.

Definition three_timers : Machine Frame Handler Memory :=
  on_sched (schedule_after 7%Z Avc) two_timers.


(** *** A coroutine that sleeps for the longest duration

    The body [co_await delay(1ms); co_await delay(duration::max());]: one
    frame, whose resume point (the number of delays completed) is the
    memory of the program. *)
Definition sleeper_start : prog unit unit unit nat :=
  co_await_delay 1%Z tt Ret.

Definition sleeper_resume : prog unit unit unit nat :=
  Load (fun pc =>
    match pc with
    | 0 => Store 1 (co_await_delay int64_max tt Ret)
    | _ => Store 2 Ret
    end).

Definition sleeper_client : Client unit unit unit nat :=
  {| resume_code := fun _ => sleeper_resume;
     sink_code := fun _ _ => Ret;
     done := fun _ pc => Nat.leb 2 pc;
     destroy := fun _ pc => pc |}.

(** The task is created, then [run_one_step] is called three times. *)
Definition sleeper_run : list (action unit unit unit nat) :=
  [AClient sleeper_start; ARunOneStep; ARunOneStep; ARunOneStep].

End TestModel.

(** ** Concrete devices and events used in the examples *)

Module Samples.
Import Ecs Events FrequencyH World Vpp.

(** An EV pile as [main] configures it (scheduled charging at 5 kW). *)
Definition ev_config : FrequencyControlConfigComponent :=
  mkFrequencyControlConfig EV_PILE (-5) 4 0.03 5 (-5) 0.1 0.95.

(** An ESS unit as [main] configures it. *)
Definition ess_config : FrequencyControlConfigComponent :=
  mkFrequencyControlConfig ESS_UNIT 0 (1000 / (0.03 * 50)) 0.03 1000 (-1000)
    0.05 0.95.

(** An EV pile whose output range does not contain 0 kW, with a nearly
    empty battery. *)
Definition ev_config_positive_range : FrequencyControlConfigComponent :=
  mkFrequencyControlConfig EV_PILE 2 4 0.03 5 1 0.1 0.95.

Definition low_battery : PhysicalStateComponent := mkPhysicalState 2 0.05.

(** A registry with one EV pile, entity 1. *)
Definition one_pile : Registry Component :=
  let '(pile, r) := create Registry_new in
  emplace_as pile (CPhysicalState (mkPhysicalState (-5) 0.5))
    (emplace_as pile (CFrequencyControlConfig ev_config) r).

(** The same registry with an ESS unit, entity 2. *)
Definition pile_and_ess : Registry Component :=
  let er := create one_pile in
  emplace_as (fst er) (CPhysicalState (mkPhysicalState 0 0.7))
    (emplace_as (fst er) (CFrequencyControlConfig ess_config) (snd er)).

(** A controller that has done its first full update at 1 s. *)
Definition after_first_update : VppState * Registry Component :=
  snd (on_frequency_update [1%N] (mkFrequencyInfo 1 0)
         (VppState_init, one_pile)).

End Samples.

(* ===================================================================== *)
(** * Part II: properties                                                 *)
(* ===================================================================== *)

(** ** Comparisons of doubles *)

Module DblFacts.
Import Dbl.

Lemma compare_cont_swap (p q : positive) :
  Pos.compare_cont Eq q p = CompOpp (Pos.compare_cont Eq p q).
Proof. rewrite (Pos.compare_cont_antisym p q Eq). reflexivity. Qed.

Lemma SFcompare_antisym (a b : spec_float) :
  SFcompare b a = option_map CompOpp (SFcompare a b).
Proof.
  destruct a as [sa|sa| |sa ma ea], b as [sb|sb| |sb mb eb]; simpl;
    try reflexivity; try (destruct sa, sb; reflexivity);
    try (destruct sa; reflexivity); try (destruct sb; reflexivity).
  destruct sa, sb; simpl; try reflexivity;
    rewrite (Z.compare_antisym ea eb);
    destruct (ea ?= eb)%Z; simpl; try reflexivity;
    rewrite (compare_cont_swap ma mb);
    destruct (Pos.compare_cont Eq ma mb); reflexivity.
Qed.

Lemma SFcompare_refl (a : spec_float) :
  a <> S754_nan -> SFcompare a a = Some Eq.
Proof.
  destruct a as [s|s| |s m e]; simpl; intros H; try congruence.
  - destruct s; reflexivity.
  - rewrite Z.compare_refl, Pos.compare_cont_refl. destruct s; reflexivity.
Qed.

Lemma SFcompare_not_nan (a b : spec_float) (c : comparison) :
  SFcompare a b = Some c -> a <> S754_nan /\ b <> S754_nan.
Proof. destruct a, b; simpl; intros H; split; congruence. Qed.

Lemma cmp_em_not_Gt e1 m1 e2 m2 :
  cmp_em e1 m1 e2 m2 <> Gt
  <-> (e1 < e2 \/ (e1 = e2 /\ (m1 <= m2)%positive))%Z.
Proof.
  unfold cmp_em. destruct (Z.compare_spec e1 e2) as [H|H|H].
  - change (Pos.compare_cont Eq m1 m2) with (Pos.compare m1 m2).
    unfold Pos.le. split; [intros; right; auto | intros [?|[_ ?]]; [lia|auto]].
  - split; [intros; left; auto | congruence].
  - split; [congruence | intros [?|[? _]]; lia].
Qed.

Lemma cmp_em_not_Lt e1 m1 e2 m2 :
  cmp_em e1 m1 e2 m2 <> Lt
  <-> (e2 < e1 \/ (e1 = e2 /\ (m2 <= m1)%positive))%Z.
Proof.
  unfold cmp_em. destruct (Z.compare_spec e1 e2) as [H|H|H].
  - change (Pos.compare_cont Eq m1 m2) with (Pos.compare m1 m2).
    rewrite (Pos.compare_antisym m2 m1). unfold Pos.le.
    destruct (m2 ?= m1)%positive; simpl;
      (split; [intros; right; split; [assumption | congruence]
              | intros [?|[_ ?]]; [lia | congruence]]).
  - split; [congruence | intros [?|[? _]]; lia].
  - split; [intros; left; auto | congruence].
Qed.

Lemma SFleb_trans (a b c : spec_float) :
  SFleb a b = true -> SFleb b c = true -> SFleb a c = true.
Proof.
  unfold SFleb.
  destruct a as [sa|sa| |sa ma ea], b as [sb|sb| |sb mb eb],
           c as [sc|sc| |sc mc ec];
    simpl; try congruence;
    try (destruct sa; simpl; congruence);
    try (destruct sb; simpl; congruence);
    try (destruct sc; simpl; congruence);
    try (destruct sa, sb; simpl; congruence);
    try (destruct sa, sc; simpl; congruence);
    try (destruct sb, sc; simpl; congruence);
    try (destruct sa, sb, sc; simpl; congruence).
  destruct sa, sb, sc; simpl; try congruence.
  - assert (E : forall e1 m1 e2 m2,
               match (e1 ?= e2)%Z with
               | Eq => CompOpp (Pos.compare_cont Eq m1 m2)
               | Lt => Gt
               | Gt => Lt
               end = CompOpp (cmp_em e1 m1 e2 m2)).
    { intros. unfold cmp_em. destruct (_ ?= _)%Z; reflexivity. }
    rewrite !E. intros H1 H2.
    assert (A : cmp_em ea ma eb mb <> Lt).
    { destruct (cmp_em ea ma eb mb); simpl in H1; congruence. }
    assert (B : cmp_em eb mb ec mc <> Lt).
    { destruct (cmp_em eb mb ec mc); simpl in H2; congruence. }
    apply cmp_em_not_Lt in A. apply cmp_em_not_Lt in B.
    assert (C : cmp_em ea ma ec mc <> Lt).
    { apply cmp_em_not_Lt.
      destruct A as [A|[A A']], B as [B|[B B']]; try (left; lia).
      right. split; [lia|]. eapply Pos.le_trans; eauto. }
    destruct (cmp_em ea ma ec mc); simpl; congruence.
  - fold (cmp_em ea ma eb mb) (cmp_em eb mb ec mc) (cmp_em ea ma ec mc).
    intros H1 H2.
    assert (A : cmp_em ea ma eb mb <> Gt).
    { destruct (cmp_em ea ma eb mb); simpl in H1; congruence. }
    assert (B : cmp_em eb mb ec mc <> Gt).
    { destruct (cmp_em eb mb ec mc); simpl in H2; congruence. }
    apply cmp_em_not_Gt in A. apply cmp_em_not_Gt in B.
    assert (C : cmp_em ea ma ec mc <> Gt).
    { apply cmp_em_not_Gt.
      destruct A as [A|[A A']], B as [B|[B B']]; try (left; lia).
      right. split; [lia|]. eapply Pos.le_trans; eauto. }
    destruct (cmp_em ea ma ec mc); simpl; congruence.
Qed.

(** [x < y] gives [x <= y]. *)
Lemma ltb_leb (x y : float) : (x <? y)%float = true -> (x <=? y)%float = true.
Proof.
  rewrite ltb_spec, leb_spec. unfold SFltb, SFleb.
  destruct (SFcompare _ _) as [[]|]; congruence.
Qed.

(** [x <= y] excludes [y < x]. *)
Lemma leb_ltb_false (x y : float) :
  (x <=? y)%float = true -> (y <? x)%float = false.
Proof.
  rewrite ltb_spec, leb_spec. unfold SFltb, SFleb.
  rewrite (SFcompare_antisym (Prim2SF x) (Prim2SF y)).
  destruct (SFcompare _ _) as [[]|]; simpl; congruence.
Qed.

(** [x == y] excludes [y < x]. *)
Lemma eqb_ltb_false (x y : float) :
  (x =? y)%float = true -> (y <? x)%float = false.
Proof.
  rewrite ltb_spec, FloatAxioms.eqb_spec. unfold SFltb, SFeqb.
  rewrite (SFcompare_antisym (Prim2SF x) (Prim2SF y)).
  destruct (SFcompare _ _) as [[]|]; simpl; congruence.
Qed.

(** The operands of a comparison that holds are numbers, and a number is
    [<=] itself. *)
Lemma leb_refl_of (x y : float) :
  (x <=? y)%float = true -> (x <=? x)%float = true /\ (y <=? y)%float = true.
Proof.
  rewrite !leb_spec. unfold SFleb.
  destruct (SFcompare (Prim2SF x) (Prim2SF y)) as [c|] eqn:E; [|congruence].
  apply SFcompare_not_nan in E as [Hx Hy].
  rewrite !SFcompare_refl by assumption. auto.
Qed.

Lemma leb_trans (x y z : float) :
  (x <=? y)%float = true -> (y <=? z)%float = true -> (x <=? z)%float = true.
Proof. rewrite !leb_spec. apply SFleb_trans. Qed.

(** [std::max(lo, std::min(hi, p))] lies in [[lo, hi]] when [lo <= hi],
    whatever [p] is (a NaN included). *)
Lemma clamp_within (lo hi p : float) :
  (lo <=? hi)%float = true ->
  within lo hi (std_max lo (std_min hi p)) = true.
Proof.
  intros H. destruct (leb_refl_of _ _ H) as [Hlo Hhi].
  unfold within, std_max, std_min.
  destruct (p <? hi)%float eqn:E1.
  - destruct (lo <? p)%float eqn:E2.
    + rewrite (ltb_leb _ _ E2), (ltb_leb _ _ E1). reflexivity.
    + rewrite Hlo, H. reflexivity.
  - destruct (lo <? hi)%float eqn:E2.
    + rewrite H, Hhi. reflexivity.
    + rewrite Hlo, H. reflexivity.
Qed.

(** Two numbers are comparable. *)
Lemma SFcompare_total (a b : spec_float) :
  a <> S754_nan -> b <> S754_nan -> exists c, SFcompare a b = Some c.
Proof.
  destruct a as [sa|sa| |sa ma ea], b as [sb|sb| |sb mb eb]; simpl;
    intros Ha Hb; try congruence; eauto.
Qed.

(** On numbers, [x <= y] fails only when [y < x]. *)
Lemma leb_false_ltb (x y : float) :
  (x <=? x)%float = true -> (y <=? y)%float = true ->
  (x <=? y)%float = false -> (y <? x)%float = true.
Proof.
  rewrite !leb_spec, ltb_spec. unfold SFleb, SFltb. intros Hx Hy.
  destruct (SFcompare (Prim2SF x) (Prim2SF x)) as [cx|] eqn:Ex; [|congruence].
  destruct (SFcompare (Prim2SF y) (Prim2SF y)) as [cy|] eqn:Ey; [|congruence].
  apply SFcompare_not_nan in Ex as [Nx _].
  apply SFcompare_not_nan in Ey as [Ny _].
  destruct (SFcompare_total _ _ Nx Ny) as [c E].
  rewrite (SFcompare_antisym (Prim2SF x) (Prim2SF y)), E.
  destruct c; simpl; congruence.
Qed.

End DblFacts.

(** ** The registry *)

Module EcsFacts.
Import Ecs.

Section Registry.
Context {Comp : Type}.

(** [emplace<C>(e, ...)] then [get<C>(e)]: the new component. *)
Lemma get_emplace_eq (ty : CompType) (e : Entity) (c : Comp)
  (r : Registry Comp) :
  get ty e (emplace ty e c r) = Some c.
Proof.
  unfold get, emplace. simpl. rewrite lookup_insert_eq.
  apply lookup_insert_eq.
Qed.

(** [emplace<C>(e, ...)] leaves every other (type, entity) slot alone. *)
Lemma get_emplace_ne (ty ty' : CompType) (e e' : Entity) (c : Comp)
  (r : Registry Comp) :
  ty' <> ty \/ e' <> e ->
  get ty' e' (emplace ty e c r) = get ty' e' r.
Proof.
  intros H. unfold get, emplace. simpl.
  destruct (decide (ty' = ty)) as [->|Hty].
  - destruct H as [H|H]; [congruence|].
    rewrite lookup_insert_eq, lookup_insert_ne by congruence.
    destruct (components_ r !! ty); [reflexivity | apply lookup_empty].
  - rewrite lookup_insert_ne by congruence. reflexivity.
Qed.

(** [emplace<C>(e, ...)] followed by any [get<C'>(e')]: the new component
    in the slot written, what was there before in every other slot. *)
Theorem get_after_emplace (ty ty' : CompType) (e e' : Entity) (c : Comp)
  (r : Registry Comp) :
  get ty' e' (emplace ty e c r)
  = if decide (ty' = ty /\ e' = e) then Some c else get ty' e' r.
Proof.
  destruct (decide (ty' = ty /\ e' = e)) as [[-> ->]|H].
  - apply get_emplace_eq.
  - apply get_emplace_ne.
    destruct (decide (ty' = ty)) as [->|]; [|auto].
    destruct (decide (e' = e)) as [->|]; [|auto].
    exfalso. apply H. split; reflexivity.
Qed.

(** A second [emplace<C>] on the same entity replaces the component of the
    first: an entity holds at most one component of a class, and the
    registry is the one the second call alone would give. *)
Theorem emplace_twice_replaces (ty : CompType) (e : Entity) (c1 c2 : Comp)
  (r : Registry Comp) :
  emplace ty e c2 (emplace ty e c1 r) = emplace ty e c2 r
  /\ length (filter (fun ec => fst ec = e)
               (for_each ty (emplace ty e c2 (emplace ty e c1 r)))) = 1.
Proof.
  assert (E : emplace ty e c2 (emplace ty e c1 r) = emplace ty e c2 r).
  { unfold emplace. simpl. f_equal.
    rewrite lookup_insert_eq. simpl.
    rewrite !insert_insert_eq. reflexivity. }
  split; [exact E|]. rewrite E.
  unfold for_each, emplace. simpl. rewrite lookup_insert_eq.
  set (inner := default ∅ (components_ r !! ty)).
  assert (P : map_to_list (<[e := c2]> inner)
              ≡ₚ (e, c2) :: map_to_list (delete e inner)).
  { rewrite <- insert_delete_eq.
    apply map_to_list_insert, lookup_delete_eq. }
  rewrite P. rewrite filter_cons_True by reflexivity. simpl. f_equal.
  assert (F : Forall (fun ec : Entity * Comp => fst ec <> e)
                (map_to_list (delete e inner))).
  { apply Forall_forall. intros [e' c'] Hin%elem_of_map_to_list. simpl.
    intros ->. rewrite lookup_delete_eq in Hin. discriminate. }
  clear P. induction F as [|x l Hx _ IH]; [reflexivity|].
  rewrite filter_cons_False by exact Hx. exact IH.
Qed.

(** [for_each<C>] calls its function on exactly the pairs [get<C>] finds,
    once per entity. *)
Theorem for_each_visits_what_get_finds (ty : CompType) (r : Registry Comp) :
  (forall e c, (e, c) ∈ for_each ty r <-> get ty e r = Some c)
  /\ NoDup (fst <$> for_each ty r).
Proof.
  unfold for_each, get. destruct (components_ r !! ty) as [inner|].
  - split; [|apply NoDup_fst_map_to_list].
    intros e c. apply elem_of_map_to_list.
  - split; [|constructor].
    intros e c. split; [intros H; inversion H | discriminate].
Qed.

Lemma create_many_spec (n : nat) :
  forall r : Registry Comp,
    (last_id_ r + N.of_nat n <= uint64_max)%N ->
    fst (create_many n r)
    = (fun i => (last_id_ r + N.of_nat i)%N) <$> seq 1 n
    /\ last_id_ (snd (create_many n r)) = (last_id_ r + N.of_nat n)%N
    /\ components_ (snd (create_many n r)) = components_ r.
Proof.
  induction n as [|k IH]; intros r Hr.
  - simpl. rewrite N.add_0_r. auto.
  - assert (E : last_id_ (snd (create r)) = (last_id_ r + 1)%N).
    { unfold create. simpl. apply N.mod_small. unfold uint64_max in *. lia. }
    destruct (IH (snd (create r))) as (I1 & I2 & I3).
    { rewrite E. lia. }
    cbn [create_many fst snd]. rewrite I1, I2, I3, E.
    split; [|split; [lia | reflexivity]].
    cbn [seq fmap list_fmap]. f_equal.
    + unfold create. simpl. rewrite N.mod_small; [lia|].
      unfold uint64_max in *. lia.
    + rewrite <- (fmap_S_seq 1 k), <- list_fmap_compose.
      apply list_fmap_ext. intros _ i _. simpl. lia.
Qed.

(** Successive calls of [create()] return consecutive identifiers: as long
    as the 64-bit counter does not wrap, they are pairwise distinct, never
    0 (the value [FaultInfo] uses for no entity) and above every
    identifier handed out before; the components are untouched. *)
Theorem create_many_fresh (n : nat) (r : Registry Comp) :
  (last_id_ r + N.of_nat n <= uint64_max)%N ->
  fst (create_many n r) = (fun i => (last_id_ r + N.of_nat i)%N) <$> seq 1 n
  /\ NoDup (fst (create_many n r))
  /\ Forall (fun e => e <> 0%N /\ (last_id_ r < e)%N) (fst (create_many n r))
  /\ last_id_ (snd (create_many n r)) = (last_id_ r + N.of_nat n)%N
  /\ components_ (snd (create_many n r)) = components_ r.
Proof.
  intros Hr. destruct (create_many_spec n r Hr) as (E1 & E2 & E3).
  split; [exact E1|]. split; [|split; [|split; assumption]]; rewrite E1.
  - apply NoDup_fmap_2; [|apply NoDup_seq].
    intros i j H. lia.
  - apply Forall_fmap, Forall_forall. intros i Hi%elem_of_seq. simpl. lia.
Qed.

End Registry.

(** Three entities created in a fresh registry: 1, 2 and 3. *)
Lemma create_many_fresh_witness :
  (last_id_ (Registry_new : Registry unit) + N.of_nat 3 <= uint64_max)%N
  /\ fst (create_many 3 (Registry_new : Registry unit)) = [1; 2; 3]%N
  /\ NoDup (fst (create_many 3 (Registry_new : Registry unit))).
Proof.
  assert (H : (last_id_ (Registry_new : Registry unit) + N.of_nat 3
               <= uint64_max)%N) by (vm_compute; discriminate).
  split; [exact H|].
  destruct (create_many_fresh 3 (Registry_new : Registry unit) H)
    as (E & Hnd & _).
  split; [exact E | exact Hnd].
Defined.

End EcsFacts.

(** ** FaultInfo and the protective components *)

Module ProtectionFacts.
Import Ecs Events ProtectionH DblFacts.

Lemma impedance_needed_iff (f : FaultInfo) :
  impedance_needed f = true
  <-> (impedance_Ohm f =? 0)%float = true
      /\ (0 <? voltage_kV f)%float = true
      /\ (0 <? current_kA f)%float = true.
Proof.
  unfold impedance_needed. rewrite !andb_true_iff. tauto.
Qed.

(** C6 as stated fails: in double arithmetic the quotient the code computes
    is not always [voltage_kV / current_kA].  For the default 220 kV and a
    current of 2.2 kA the two products are rounded to 220000 and 2200, whose
    quotient is 100, while 220 / 2.2 is one unit in the last place below
    100. *)
Lemma impedance_is_not_the_plain_quotient :
  impedance_needed (mkFaultInfo 2.2 220 0 0 1%N) = true
  /\ impedance_Ohm (calculate_impedance_if_needed (mkFaultInfo 2.2 220 0 0 1%N))
     = 100%float
  /\ (220 / 2.2)%float = 99.999999999999986%float
  /\ (impedance_Ohm (calculate_impedance_if_needed (mkFaultInfo 2.2 220 0 0 1%N))
      =? 220 / 2.2)%float = false.
Proof. repeat split; vm_compute; reflexivity. Qed.

(** C6 (as amended): [calculate_impedance_if_needed] writes
    [(voltage_kV * 1000.0) / (current_kA * 1000.0)] to [impedance_Ohm]
    exactly when [impedance_Ohm == 0], [voltage_kV > 0] and
    [current_kA > 0], and then changes no other field; in every other case
    the FaultInfo is unchanged, in particular when [current_kA == 0]. *)
Theorem calculate_impedance_if_needed_spec (f : FaultInfo) :
  (impedance_needed f = true ->
     calculate_impedance_if_needed f
     = mkFaultInfo (current_kA f) (voltage_kV f)
         ((voltage_kV f * 1000) / (current_kA f * 1000))%float
         (distance_km f) (faulty_entity_id f))
  /\ (impedance_needed f = false -> calculate_impedance_if_needed f = f)
  /\ (impedance_needed f = true
      <-> (impedance_Ohm f =? 0)%float = true
          /\ (0 <? voltage_kV f)%float = true
          /\ (0 <? current_kA f)%float = true)
  /\ ((current_kA f =? 0)%float = true -> calculate_impedance_if_needed f = f).
Proof.
  split; [|split; [|split]].
  - intros H. unfold calculate_impedance_if_needed. rewrite H. reflexivity.
  - intros H. unfold calculate_impedance_if_needed. rewrite H. reflexivity.
  - apply impedance_needed_iff.
  - intros H. apply eqb_ltb_false in H.
    unfold calculate_impedance_if_needed, impedance_needed.
    rewrite H, andb_false_r. reflexivity.
Qed.

(** With ordered zones, an impedance inside some zone is inside zone 3. *)
Lemma within_some_zone (z1 z2 z3 imp : float) :
  (z1 <=? z2)%float = true -> (z2 <=? z3)%float = true ->
  ((imp <=? z1) || (imp <=? z2) || (imp <=? z3))%float = (imp <=? z3)%float.
Proof.
  intros H12 H23.
  destruct (imp <=? z3)%float eqn:E3; [apply orb_true_r|].
  destruct (imp <=? z2)%float eqn:E2.
  { rewrite (leb_trans _ _ _ E2 H23) in E3. discriminate. }
  destruct (imp <=? z1)%float eqn:E1; [|reflexivity].
  rewrite (leb_trans _ _ _ (leb_trans _ _ _ E1 H12) H23) in E3. discriminate.
Qed.

(** C5: the pick-up rule and the trip delay of a distance protection with
    zones [z1 <= z2 <= z3] and delays [t1], [t2], [t3]. *)
Theorem distance_protection_policy (z1 z2 z3 : float) (t1 t2 t3 : Z)
  (fault : FaultInfo) (self_id : Entity) :
  (z1 <=? z2)%float = true -> (z2 <=? z3)%float = true ->
  (faulty_entity_id fault <> self_id /\ faulty_entity_id fault <> 0%N ->
     DistanceProtection_pick_up
       (DistanceProtection_new z1 t1 z2 t2 z3 t3) fault self_id
     = (impedance_Ohm fault <=? z3)%float)
  /\ (~ (faulty_entity_id fault <> self_id /\ faulty_entity_id fault <> 0%N) ->
     DistanceProtection_pick_up
       (DistanceProtection_new z1 t1 z2 t2 z3 t3) fault self_id
     = ((impedance_Ohm fault <=? z1) || (impedance_Ohm fault <=? z2)
        || (impedance_Ohm fault <=? z3))%float)
  /\ DistanceProtection_trip_delay_ms
       (DistanceProtection_new z1 t1 z2 t2 z3 t3) fault
     = (if (impedance_Ohm fault <=? z1)%float then t1
        else if (impedance_Ohm fault <=? z2)%float then t2
        else if (impedance_Ohm fault <=? z3)%float then t3
        else 99999%Z)
  /\ pick_up (Distance (DistanceProtection_new z1 t1 z2 t2 z3 t3)) fault self_id
     = (impedance_Ohm fault <=? z3)%float.
Proof.
  intros H12 H23.
  assert (Helse : fault_elsewhere fault self_id = true
                  <-> faulty_entity_id fault <> self_id
                      /\ faulty_entity_id fault <> 0%N).
  { unfold fault_elsewhere.
    rewrite andb_true_iff, !negb_true_iff, !N.eqb_neq. tauto. }
  split; [|split; [|split]].
  - intros H. apply Helse in H.
    unfold DistanceProtection_pick_up. rewrite H. reflexivity.
  - intros H.
    unfold DistanceProtection_pick_up.
    destruct (fault_elsewhere fault self_id) eqn:E; [|reflexivity].
    exfalso. apply H, Helse. reflexivity.
  - reflexivity.
  - simpl. unfold DistanceProtection_pick_up.
    destruct (fault_elsewhere fault self_id); [reflexivity|].
    apply (within_some_zone z1 z2 z3); assumption.
Qed.

(** The line's distance protection of [main], a fault of 20 ohm on another
    entity: backup zone, delay [t3]. *)
Lemma distance_protection_policy_witness :
  (5 <=? 15)%float = true /\ (15 <=? 25)%float = true
  /\ DistanceProtection_pick_up (DistanceProtection_new 5 0 15 300 25 700)
       (mkFaultInfo 3 220 20 0 2%N) 1%N = (20 <=? 25)%float
  /\ DistanceProtection_trip_delay_ms (DistanceProtection_new 5 0 15 300 25 700)
       (mkFaultInfo 3 220 20 0 2%N) = 700%Z.
Proof.
  pose proof (distance_protection_policy 5 15 25 0 300 700
                (mkFaultInfo 3 220 20 0 2%N) 1%N eq_refl eq_refl)
    as (Hbackup & _ & Hdelay & _).
  split; [reflexivity|]. split; [reflexivity|]. split.
  - apply Hbackup. split; discriminate.
  - exact Hdelay.
Defined.

(** [calculate_impedance_if_needed] is idempotent: the injector derives the
    impedance of its second fault before sending it and [run] derives it
    again on reception, with the same result as one call (also when the
    quotient rounds to 0 and is therefore recomputed). *)
Theorem calculate_impedance_if_needed_idempotent (f : FaultInfo) :
  calculate_impedance_if_needed (calculate_impedance_if_needed f)
  = calculate_impedance_if_needed f.
Proof.
  unfold calculate_impedance_if_needed at 2 3.
  destruct (impedance_needed f) eqn:E.
  - unfold calculate_impedance_if_needed.
    destruct (impedance_needed (set_impedance_Ohm _ f)); reflexivity.
  - unfold calculate_impedance_if_needed. rewrite E. reflexivity.
Qed.

(** An over-current stage that picks up a fault picks up every fault whose
    current is at least as large, on whichever entity it sits and whichever
    entity is faulty; its delay is the fixed one. *)
Theorem overcurrent_pick_up_monotone (p : OverCurrentProtection)
  (f f' : FaultInfo) (self_id self_id' : Entity) :
  OverCurrentProtection_pick_up p f self_id = true ->
  (current_kA f <=? current_kA f')%float = true ->
  OverCurrentProtection_pick_up p f' self_id' = true
  /\ trip_delay_ms (OverCurrent p) f' = trip_delay_ms (OverCurrent p) f.
Proof.
  unfold OverCurrentProtection_pick_up. intros H1 H2.
  split; [exact (leb_trans _ _ _ H1 H2) | reflexivity].
Qed.

(** The transformer stage of [main] (2.5 kA) picks up the 3 kA fault, hence
    the 15 kA one. *)
Lemma overcurrent_pick_up_monotone_witness :
  OverCurrentProtection_pick_up (mkOverCurrentProtection 2.5 300 "OC-T1P-Main")
    (mkFaultInfo 3 220 0 0 2%N) 2%N = true
  /\ (3 <=? 15)%float = true
  /\ OverCurrentProtection_pick_up (mkOverCurrentProtection 2.5 300 "OC-T1P-Main")
       (mkFaultInfo 15 220 10 10 1%N) 1%N = true.
Proof.
  split; [reflexivity|]. split; [reflexivity|].
  apply (overcurrent_pick_up_monotone
           (mkOverCurrentProtection 2.5 300 "OC-T1P-Main")
           (mkFaultInfo 3 220 0 0 2%N) (mkFaultInfo 15 220 10 10 1%N)
           2%N 1%N); reflexivity.
Defined.

(** Time grading of the distance protection: when the delays are ordered,
    [t1 <= t2 <= t3 <= 99999], a fault of smaller impedance never gets a
    longer delay. *)
Theorem distance_delay_graded (z1 z2 z3 : float) (t1 t2 t3 : Z)
  (f f' : FaultInfo) :
  (t1 <= t2)%Z -> (t2 <= t3)%Z -> (t3 <= 99999)%Z ->
  (impedance_Ohm f <=? impedance_Ohm f')%float = true ->
  (DistanceProtection_trip_delay_ms
     (DistanceProtection_new z1 t1 z2 t2 z3 t3) f
   <= DistanceProtection_trip_delay_ms
        (DistanceProtection_new z1 t1 z2 t2 z3 t3) f')%Z.
Proof.
  intros H12 H23 H3 Hle.
  unfold DistanceProtection_trip_delay_ms, z_at, t_at. simpl.
  destruct (impedance_Ohm f' <=? z1)%float eqn:E1.
  { rewrite (leb_trans _ _ _ Hle E1). lia. }
  destruct (impedance_Ohm f' <=? z2)%float eqn:E2.
  { rewrite (leb_trans _ _ _ Hle E2).
    destruct (impedance_Ohm f <=? z1)%float; lia. }
  destruct (impedance_Ohm f' <=? z3)%float eqn:E3.
  { rewrite (leb_trans _ _ _ Hle E3).
    destruct (impedance_Ohm f <=? z1)%float; [lia|].
    destruct (impedance_Ohm f <=? z2)%float; lia. }
  destruct (impedance_Ohm f <=? z1)%float; [lia|].
  destruct (impedance_Ohm f <=? z2)%float; [lia|].
  destruct (impedance_Ohm f <=? z3)%float; lia.
Qed.

(** The line protection of [main]: 4 ohm trips at once, 20 ohm after
    700 ms. *)
Lemma distance_delay_graded_witness :
  (0 <= 300)%Z /\ (300 <= 700)%Z /\ (700 <= 99999)%Z
  /\ (4 <=? 20)%float = true
  /\ (DistanceProtection_trip_delay_ms (DistanceProtection_new 5 0 15 300 25 700)
        (mkFaultInfo 15 220 4 0 1%N)
      <= DistanceProtection_trip_delay_ms
           (DistanceProtection_new 5 0 15 300 25 700)
           (mkFaultInfo 3 220 20 0 1%N))%Z.
Proof.
  split; [lia|]. split; [lia|]. split; [lia|]. split; [reflexivity|].
  apply (distance_delay_graded 5 15 25 0 300 700
           (mkFaultInfo 15 220 4 0 1%N) (mkFaultInfo 3 220 20 0 1%N));
    [lia | lia | lia | reflexivity].
Defined.

(** With ordered zones, the delay of a distance protection is the sentinel
    99999 ms exactly for the faults it does not pick up: a fault it picks
    up gets the delay of one of its zones. *)
Theorem distance_sentinel_delay (z1 z2 z3 : float) (t1 t2 t3 : Z)
  (fault : FaultInfo) (self_id : Entity) :
  (z1 <=? z2)%float = true -> (z2 <=? z3)%float = true ->
  (DistanceProtection_pick_up
     (DistanceProtection_new z1 t1 z2 t2 z3 t3) fault self_id = true ->
   DistanceProtection_trip_delay_ms
     (DistanceProtection_new z1 t1 z2 t2 z3 t3) fault ∈ [t1; t2; t3])
  /\ (DistanceProtection_pick_up
        (DistanceProtection_new z1 t1 z2 t2 z3 t3) fault self_id = false ->
      DistanceProtection_trip_delay_ms
        (DistanceProtection_new z1 t1 z2 t2 z3 t3) fault = 99999%Z).
Proof.
  intros H12 H23.
  assert (P : DistanceProtection_pick_up
                (DistanceProtection_new z1 t1 z2 t2 z3 t3) fault self_id
              = (impedance_Ohm fault <=? z3)%float).
  { unfold DistanceProtection_pick_up.
    destruct (fault_elsewhere fault self_id); [reflexivity|].
    apply (within_some_zone z1 z2 z3); assumption. }
  rewrite P. unfold DistanceProtection_trip_delay_ms, z_at, t_at. simpl.
  split; intros E3.
  - destruct (impedance_Ohm fault <=? z1)%float; [set_solver|].
    destruct (impedance_Ohm fault <=? z2)%float; [set_solver|].
    rewrite E3. set_solver.
  - destruct (impedance_Ohm fault <=? z1)%float eqn:E1.
    { rewrite (leb_trans _ _ _ (leb_trans _ _ _ E1 H12) H23) in E3.
      discriminate. }
    destruct (impedance_Ohm fault <=? z2)%float eqn:E2.
    { rewrite (leb_trans _ _ _ E2 H23) in E3. discriminate. }
    rewrite E3. reflexivity.
Qed.

(** The line protection of [main] and a fault of 30 ohm: no pick-up, and
    the sentinel delay. *)
Lemma distance_sentinel_delay_witness :
  (5 <=? 15)%float = true /\ (15 <=? 25)%float = true
  /\ DistanceProtection_pick_up (DistanceProtection_new 5 0 15 300 25 700)
       (mkFaultInfo 3 220 30 0 1%N) 1%N = false
  /\ DistanceProtection_trip_delay_ms (DistanceProtection_new 5 0 15 300 25 700)
       (mkFaultInfo 3 220 30 0 1%N) = 99999%Z.
Proof.
  split; [reflexivity|]. split; [reflexivity|]. split; [reflexivity|].
  apply (distance_sentinel_delay 5 15 25 0 300 700
           (mkFaultInfo 3 220 30 0 1%N) 1%N eq_refl eq_refl).
  reflexivity.
Defined.

End ProtectionFacts.

(** ** The registry and the protection engine *)

Module ProtectionSystemFacts.
Import Ecs Events ProtectionH World ProtectionSystem ProtectionProgram.

Lemma class_of_concrete (c : Component) : class_of c <> TyProtectiveComp.
Proof. destruct c as [[]| |]; discriminate. Qed.

(** No program can file a component under the key of the abstract class. *)
Lemma built_no_ProtectiveComp_key (r : Registry Component) :
  built r -> components_ r !! TyProtectiveComp = None.
Proof.
  induction 1 as [|r H IH|r e c H IH]; simpl.
  - apply lookup_empty.
  - exact IH.
  - rewrite lookup_insert_ne; [exact IH | apply class_of_concrete].
Qed.

Lemma for_each_ProtectiveComp_nil (r : Registry Component) :
  built r -> for_each TyProtectiveComp r = [].
Proof.
  intros H. unfold for_each. rewrite (built_no_ProtectiveComp_key r H).
  reflexivity.
Qed.

Lemma main_registry_built : built main_registry.
Proof.
  unfold main_registry, main_transformer1, main_with_line1, main_line1.
  repeat first [apply built_emplace | apply built_create | apply built_new].
Qed.

(** C1 (the code departs from it): on the registry [main] builds and the
    first fault of the injector, the loop of [run] visits no component and
    spawns no sub-task, although three stored protective components pick
    up; the run of the protection tasks of [main] to 70000 ms prints the
    two injections and receptions only, whereas an iteration over every
    stored protective component trips the line at 6200 ms and opens its
    breaker at 6300 ms. *)
Theorem run_iteration_visits_nothing :
  line1_prot = 1%N /\ transformer1_prot = 2%N
  /\ run_iteration main_registry (fault1 line1_prot) = []
  /\ expected_iteration main_registry (fault1 line1_prot)
     = [ mkTripLater 2%N 300 "OC-T1P-Main" 1%N;
         mkTripLater 1%N 200 "OC-L1P-Fast" 1%N;
         mkTripLater 1%N 300 "DIST" 1%N ]
  /\ main_console run_iteration 50
     = Some [ Injecting 6000 1 1%N; FaultReceived 6000 1%N;
              Injecting 13000 2 2%N; FaultReceived 13000 2%N ]
  /\ main_console expected_iteration 50
     = Some [ Injecting 6000 1 1%N; FaultReceived 6000 1%N;
              PickedUp 6000 "OC-T1P-Main" 2%N 300;
              PickedUp 6000 "OC-L1P-Fast" 1%N 200;
              PickedUp 6000 "DIST" 1%N 300;
              Tripping 6200 "OC-L1P-Fast" 1%N 1%N; TripForSelf 6200 1%N;
              Tripping 6300 "OC-T1P-Main" 2%N 1%N; TripForSelf 6300 2%N;
              Tripping 6300 "DIST" 1%N 1%N; BreakerOpened 6300 1%N;
              BreakerOpened 6400 2%N;
              Injecting 13000 2 2%N; FaultReceived 13000 2%N;
              PickedUp 13000 "OC-T1P-Main" 2%N 300;
              Tripping 13300 "OC-T1P-Main" 2%N 2%N; TripForSelf 13300 2%N;
              BreakerOpened 13400 2%N ].
Proof. repeat split; vm_compute; reflexivity. Qed.

(** The same on every registry a program can build and every fault:
    [emplace<Comp>] files a component under the key of its concrete class,
    [for_each<ProtectiveComp>] looks under the key of the abstract class,
    so the loop of [run] visits nothing and calls [trip_later] for no
    component. *)
Lemma run_iteration_nil (r : Registry Component) (received : FaultInfo) :
  built r -> run_iteration r received = [].
Proof.
  intros H. unfold run_iteration. rewrite (for_each_ProtectiveComp_nil r H).
  reflexivity.
Qed.

(** The registry of [main] and the second fault of the injector. *)
Lemma run_iteration_nil_witness :
  built main_registry
  /\ run_iteration main_registry (fault2 transformer1_prot) = [].
Proof.
  split; [exact main_registry_built|].
  apply (run_iteration_nil main_registry (fault2 transformer1_prot)
           main_registry_built).
Defined.

(** On a registry built with [create] and [emplace<Comp>], every component
    is stored under the key of its own class: what [get<Comp>] returns
    after its [static_cast<Comp*>] is an object of class [Comp]. *)
Theorem built_registry_well_typed (r : Registry Component) (ty : CompType)
  (e : Entity) (c : Component) :
  built r -> get ty e r = Some c -> class_of c = ty.
Proof.
  intros Hb. revert ty e c.
  induction Hb as [|r H IH|r e0 c0 H IH]; intros ty e c.
  - unfold get. simpl. rewrite lookup_empty. discriminate.
  - exact (IH ty e c).
  - unfold emplace_as.
    destruct (decide (ty = class_of c0 /\ e = e0)) as [[-> ->]|Hne].
    + rewrite EcsFacts.get_emplace_eq. intros [= <-]. reflexivity.
    + rewrite EcsFacts.get_emplace_ne; [apply IH|].
      destruct (decide (ty = class_of c0)) as [->|]; [|auto].
      destruct (decide (e = e0)) as [->|]; [|auto].
      exfalso. apply Hne. split; reflexivity.
Qed.

(** The distance protection of the line of [main]. *)
Lemma built_registry_well_typed_witness :
  built main_registry
  /\ get TyDistanceProtection line1_prot main_registry
     = Some (CProtective (Distance (DistanceProtection_new 5 0 15 300 25 700)))
  /\ class_of (CProtective (Distance (DistanceProtection_new 5 0 15 300 25 700)))
     = TyDistanceProtection.
Proof.
  assert (E : get TyDistanceProtection line1_prot main_registry
              = Some (CProtective
                        (Distance (DistanceProtection_new 5 0 15 300 25 700))))
    by (vm_compute; reflexivity).
  split; [exact main_registry_built|]. split; [exact E|].
  exact (built_registry_well_typed main_registry TyDistanceProtection
           line1_prot _ main_registry_built E).
Defined.

End ProtectionSystemFacts.

(** ** The VPP frequency-response task *)

Module VppFacts.
Import Ecs Events FrequencyH World Vpp Samples Dbl DblFacts.
Local Open Scope float_scope.

(** C9: inside the deadband, its edge included, the power computed before
    the clamp is the base power. *)
Theorem deadband_gives_base_power (config : FrequencyControlConfigComponent)
  (soc_now freq_dev : float) :
  (std_abs freq_dev <=? deadband_Hz config) = true ->
  computed_power config soc_now freq_dev = base_power_kW config.
Proof.
  intros H. unfold computed_power.
  rewrite (leb_ltb_false _ _ H). reflexivity.
Qed.

(** An EV pile of [main] at a deviation of exactly minus the deadband. *)
Lemma deadband_gives_base_power_witness :
  (std_abs (-0.03) <=? deadband_Hz ev_config) = true
  /\ (std_abs (-0.03) =? deadband_Hz ev_config) = true
  /\ computed_power ev_config 0.5 (-0.03) = base_power_kW ev_config.
Proof.
  split; [reflexivity|]. split; [reflexivity|].
  apply (deadband_gives_base_power ev_config 0.5 (-0.03)). reflexivity.
Defined.

(** The guard either keeps the clamped power or forces 0. *)
Lemma soc_guard_cases (config : FrequencyControlConfigComponent)
  (soc_now p : float) :
  soc_guard config soc_now p = p
  \/ (type config = EV_PILE /\ soc_guard config soc_now p = 0).
Proof.
  unfold soc_guard. destruct (type config) eqn:T; [|left; reflexivity].
  destruct ((p <? 0) && (soc_max_threshold config <=? soc_now)).
  - right. split; [reflexivity|]. reflexivity.
  - destruct ((0 <? p) && (soc_now <=? soc_min_threshold config));
      [right; split; reflexivity | left; reflexivity].
Qed.

Lemma limited_power_within (config : FrequencyControlConfigComponent)
  (soc_now p : float) :
  (min_output_kW config <=? max_output_kW config) = true ->
  (type config = EV_PILE ->
     within (min_output_kW config) (max_output_kW config) 0 = true) ->
  within (min_output_kW config) (max_output_kW config)
    (soc_guard config soc_now (clamp_power config p)) = true.
Proof.
  intros Hrange Hzero.
  destruct (soc_guard_cases config soc_now (clamp_power config p))
    as [E|[T E]]; rewrite E.
  - apply clamp_within. exact Hrange.
  - apply Hzero. exact T.
Qed.

(** C4 as stated fails: an EV pile whose range is [1, 5] kW and whose SOC
    is below the minimum is forced to 0 kW by the guard that follows the
    clamp. *)
Lemma soc_guard_leaves_the_limits :
  update_device (-1) 0 (mkFrequencyInfo 5 0) ev_config_positive_range
    low_battery
  = mkPhysicalState 0 0.05
  /\ within (min_output_kW ev_config_positive_range)
       (max_output_kW ev_config_positive_range)
       (current_power_kW
          (update_device (-1) 0 (mkFrequencyInfo 5 0)
             ev_config_positive_range low_battery)) = false.
Proof. split; vm_compute; reflexivity. Qed.

(** The clamp alone leaves the limits when they are inverted. *)
Lemma inverted_limits_are_not_kept :
  within (-5) 5
    (current_power_kW
       (update_device (-1) 0 (mkFrequencyInfo 5 0)
          (mkFrequencyControlConfig ESS_UNIT 0 4 0.03 (-5) 5 0.05 0.95)
          (mkPhysicalState 0 0.5))) = true
  /\ within 5 (-5)
       (current_power_kW
          (update_device (-1) 0 (mkFrequencyInfo 5 0)
             (mkFrequencyControlConfig ESS_UNIT 0 4 0.03 (-5) 5 0.05 0.95)
             (mkPhysicalState 0 0.5))) = false.
Proof. split; vm_compute; reflexivity. Qed.

(** C4 (as amended): when [min_output_kW <= max_output_kW] and, for an EV
    pile, 0 kW is inside the limits, the power stored by a full update of
    the device is inside the limits, whatever the SOC, the frequency
    deviation and the other settings are. *)
Theorem updated_power_within_limits (last_full_update_time_s dt : float)
  (info : FrequencyInfo) (config : FrequencyControlConfigComponent)
  (state : PhysicalStateComponent) :
  (min_output_kW config <=? max_output_kW config) = true ->
  (type config = EV_PILE ->
     within (min_output_kW config) (max_output_kW config) 0 = true) ->
  within (min_output_kW config) (max_output_kW config)
    (current_power_kW
       (update_device last_full_update_time_s dt info config state)) = true.
Proof.
  intros Hrange Hzero. unfold update_device. simpl.
  apply limited_power_within; assumption.
Qed.

(** An EV pile of [main] with an empty battery in a deep frequency dip:
    the guard forces 0 kW, inside [-5, 5]. *)
Lemma updated_power_within_limits_witness :
  (min_output_kW ev_config <=? max_output_kW ev_config) = true
  /\ within (min_output_kW ev_config) (max_output_kW ev_config) 0 = true
  /\ within (min_output_kW ev_config) (max_output_kW ev_config)
       (current_power_kW
          (update_device 1 2 (mkFrequencyInfo 3 (-0.2)) ev_config
             (mkPhysicalState 0 0.1))) = true.
Proof.
  split; [reflexivity|]. split; [reflexivity|].
  apply (updated_power_within_limits 1 2 (mkFrequencyInfo 3 (-0.2)) ev_config
           (mkPhysicalState 0 0.1)).
  - reflexivity.
  - intros _. reflexivity.
Defined.

(** What a delivery leaves in [last_processed_event_time_s]. *)
Lemma on_frequency_update_stale (managed : list Entity) (info : FrequencyInfo)
  (st : VppState * Registry Component) :
  (current_sim_time_seconds info <=? current_sim_time_seconds info) = true ->
  stale (fst (snd (on_frequency_update managed info st))) info = true.
Proof.
  intros Hnum. destruct st as [s registry]. unfold on_frequency_update.
  destruct (stale s info) eqn:E; [exact E|].
  destruct (gating _ info) as [[] dt]; exact Hnum.
Qed.

Lemma on_frequency_update_discards (managed : list Entity)
  (info : FrequencyInfo) (st : VppState * Registry Component) :
  stale (fst st) info = true ->
  on_frequency_update managed info st = (Discarded, st).
Proof.
  destruct st as [s registry]. simpl. intros H.
  unfold on_frequency_update. rewrite H. reflexivity.
Qed.

(** C7 as stated fails: after a full update at 1 s, the sample
    (1.5 s, 0 Hz) passes the dedupe test but neither gating threshold, so
    its two deliveries cause no full update at all. *)
Lemma redelivery_without_full_update :
  fst (deliver [1%N] [mkFrequencyInfo 1.5 0; mkFrequencyInfo 1.5 0]
         after_first_update) = [Skipped; Discarded]
  /\ full_updates
       (fst (deliver [1%N] [mkFrequencyInfo 1.5 0; mkFrequencyInfo 1.5 0]
               after_first_update)) = 0%nat.
Proof. split; vm_compute; reflexivity. Qed.

(** A time stamp that is not a number passes the dedupe test every time:
    the second delivery is then not discarded (the gating test stops it). *)
Lemma nan_time_is_never_stale :
  fst (deliver [1%N] [mkFrequencyInfo nan 0; mkFrequencyInfo nan 0]
         (VppState_init, one_pile)) = [FullUpdate; Skipped].
Proof. vm_compute. reflexivity. Qed.

(** C7 (as amended): the second of two successive deliveries of the same
    [FrequencyInfo], whose time stamp is a number, satisfies the dedupe
    test and is discarded: it changes neither the controller's state nor
    any component, so the two deliveries cause as many full updates as
    the first alone, at most one. *)
Theorem redelivery_is_discarded (managed : list Entity) (info : FrequencyInfo)
  (st : VppState * Registry Component) :
  (current_sim_time_seconds info <=? current_sim_time_seconds info) = true ->
  stale (fst (snd (on_frequency_update managed info st))) info = true
  /\ on_frequency_update managed info (snd (on_frequency_update managed info st))
     = (Discarded, snd (on_frequency_update managed info st))
  /\ snd (deliver managed [info; info] st)
     = snd (on_frequency_update managed info st)
  /\ full_updates (fst (deliver managed [info; info] st))
     = full_updates [fst (on_frequency_update managed info st)]
  /\ (full_updates (fst (deliver managed [info; info] st)) <= 1)%nat.
Proof.
  intros Hnum.
  pose proof (on_frequency_update_stale managed info st Hnum) as Hstale.
  pose proof (on_frequency_update_discards managed info _ Hstale) as Hdisc.
  split; [exact Hstale|]. split; [exact Hdisc|].
  simpl. destruct (on_frequency_update managed info st) as [o st1] eqn:E1.
  simpl in Hdisc. rewrite Hdisc. simpl.
  split; [reflexivity|].
  destruct o; vm_compute; auto.
Qed.

(** The first sample of a fresh controller, delivered twice: one full
    update. *)
Lemma redelivery_is_discarded_witness :
  (1.5 <=? 1.5) = true
  /\ fst (deliver [1%N] [mkFrequencyInfo 1.5 0; mkFrequencyInfo 1.5 0]
            (VppState_init, one_pile)) = [FullUpdate; Discarded]
  /\ (full_updates
        (fst (deliver [1%N] [mkFrequencyInfo 1.5 0; mkFrequencyInfo 1.5 0]
                (VppState_init, one_pile))) <= 1)%nat.
Proof.
  split; [reflexivity|]. split; [vm_compute; reflexivity|].
  apply (redelivery_is_discarded [1%N] (mkFrequencyInfo 1.5 0)
           (VppState_init, one_pile)).
  reflexivity.
Defined.

(** *** The same at the level of the registry *)

Lemma get_config_put_state (e e' : Entity) (st : PhysicalStateComponent)
  (r : Registry Component) :
  get_FrequencyControlConfig e (put_PhysicalState e' st r)
  = get_FrequencyControlConfig e r.
Proof.
  unfold get_FrequencyControlConfig, put_PhysicalState.
  rewrite EcsFacts.get_emplace_ne by (left; discriminate). reflexivity.
Qed.

Lemma get_state_put_state_eq (e : Entity) (st : PhysicalStateComponent)
  (r : Registry Component) :
  get_PhysicalState e (put_PhysicalState e st r) = Some st.
Proof.
  unfold get_PhysicalState, put_PhysicalState.
  rewrite EcsFacts.get_emplace_eq. reflexivity.
Qed.

Lemma get_state_put_state_ne (e e' : Entity) (st : PhysicalStateComponent)
  (r : Registry Component) :
  e <> e' ->
  get_PhysicalState e (put_PhysicalState e' st r) = get_PhysicalState e r.
Proof.
  intros H. unfold get_PhysicalState, put_PhysicalState.
  rewrite EcsFacts.get_emplace_ne by (right; exact H). reflexivity.
Qed.

Lemma update_entity_config (t dt : float) (info : FrequencyInfo)
  (r : Registry Component) (e e' : Entity) :
  get_FrequencyControlConfig e (update_entity t dt info r e')
  = get_FrequencyControlConfig e r.
Proof.
  unfold update_entity.
  destruct (get_FrequencyControlConfig e' r); [|reflexivity].
  destruct (get_PhysicalState e' r); [|reflexivity].
  apply get_config_put_state.
Qed.

Lemma update_entity_has_state (t dt : float) (info : FrequencyInfo)
  (r : Registry Component) (e e' : Entity) :
  is_Some (get_PhysicalState e r) ->
  is_Some (get_PhysicalState e (update_entity t dt info r e')).
Proof.
  intros H. unfold update_entity.
  destruct (get_FrequencyControlConfig e' r); [|exact H].
  destruct (get_PhysicalState e' r) eqn:E; [|exact H].
  destruct (decide (e = e')) as [->|Hne].
  - rewrite get_state_put_state_eq. eauto.
  - rewrite get_state_put_state_ne by exact Hne. exact H.
Qed.

Lemma update_entity_self (t dt : float) (info : FrequencyInfo)
  (r : Registry Component) (e : Entity)
  (config : FrequencyControlConfigComponent) :
  get_FrequencyControlConfig e r = Some config ->
  is_Some (get_PhysicalState e r) -> limits_ok config ->
  device_within e (update_entity t dt info r e).
Proof.
  intros Hc [st Hs] [Hrange Hzero].
  exists config, (update_device t dt info config st).
  split; [rewrite update_entity_config; exact Hc|].
  unfold update_entity. rewrite Hc, Hs.
  split; [apply get_state_put_state_eq|].
  unfold update_device. simpl. apply limited_power_within; assumption.
Qed.

Lemma update_entity_other (t dt : float) (info : FrequencyInfo)
  (r : Registry Component) (e e' : Entity) :
  e <> e' -> device_within e r -> device_within e (update_entity t dt info r e').
Proof.
  intros Hne (config & st & Hc & Hs & Hw). exists config, st.
  split; [rewrite update_entity_config; exact Hc|].
  split; [|exact Hw].
  unfold update_entity.
  destruct (get_FrequencyControlConfig e' r); [|exact Hs].
  destruct (get_PhysicalState e' r); [|exact Hs].
  rewrite get_state_put_state_ne by exact Hne. exact Hs.
Qed.

(** After a full update, every managed device that has both components
    and admissible limits holds a power inside its limits: also when the
    list of managed entities names it more than once. *)
Lemma full_update_within_limits (t dt : float) (info : FrequencyInfo)
  (managed : list Entity) (r : Registry Component) (e : Entity)
  (config : FrequencyControlConfigComponent) :
  e ∈ managed ->
  get_FrequencyControlConfig e r = Some config ->
  is_Some (get_PhysicalState e r) -> limits_ok config ->
  device_within e (full_update t dt info managed r).
Proof.
  intros Hin Hc Hs Hok. unfold full_update.
  assert (H : e ∈ managed \/ device_within e r) by (left; exact Hin).
  clear Hin. revert r Hc Hs H.
  induction managed as [|e' l IH]; intros r Hc Hs H; simpl.
  - destruct H as [H|H]; [inversion H | exact H].
  - apply IH.
    + rewrite update_entity_config. exact Hc.
    + apply update_entity_has_state, Hs.
    + destruct (decide (e = e')) as [<-|Hne].
      * right. eapply update_entity_self; eauto.
      * destruct H as [H|H].
        -- apply elem_of_cons in H as [H|H]; [congruence | left; exact H].
        -- right. apply update_entity_other; assumption.
Qed.

(** The pile of [one_pile], managed twice over. *)
Lemma full_update_within_limits_witness :
  1%N ∈ [1%N; 1%N]
  /\ get_FrequencyControlConfig 1%N one_pile = Some ev_config
  /\ is_Some (get_PhysicalState 1%N one_pile)
  /\ device_within 1%N
       (full_update 1 2 (mkFrequencyInfo 3 (-0.2)) [1%N; 1%N] one_pile).
Proof.
  assert (Hin : 1%N ∈ [1%N; 1%N]) by (left).
  assert (Hc : get_FrequencyControlConfig 1%N one_pile = Some ev_config)
    by (vm_compute; reflexivity).
  assert (Hs : is_Some (get_PhysicalState 1%N one_pile))
    by (eexists; vm_compute; reflexivity).
  split; [exact Hin|]. split; [exact Hc|]. split; [exact Hs|].
  apply (full_update_within_limits 1 2 (mkFrequencyInfo 3 (-0.2)) [1%N; 1%N]
           one_pile 1%N ev_config Hin Hc Hs).
  split; [reflexivity | intros _; reflexivity].
Defined.

(** *** The state of charge *)

(** The SOC a full update stores is in [[0, 1]] whenever the SOC was there
    before or the update integrated it (whatever it was then, a NaN
    included). *)
Theorem updated_soc_in_unit_interval (last_full_update_time_s dt : float)
  (info : FrequencyInfo) (config : FrequencyControlConfigComponent)
  (state : PhysicalStateComponent) :
  within 0 1 (soc state) = true
  \/ ((0 <=? last_full_update_time_s) && (0.000001 <? dt)) = true ->
  within 0 1
    (soc (update_device last_full_update_time_s dt info config state)) = true.
Proof.
  intros H. unfold update_device, integrate_soc. simpl.
  destruct ((0 <=? last_full_update_time_s) && (0.000001 <? dt)); simpl.
  - apply clamp_within. reflexivity.
  - destruct H as [H|H]; [exact H | discriminate].
Qed.

(** Two seconds of charging at 5 kW with a battery recorded at 120 %: the
    SOC stored is 1. *)
Lemma updated_soc_in_unit_interval_witness :
  ((0 <=? 1) && (0.000001 <? 2)) = true
  /\ within 0 1
       (soc (update_device 1 2 (mkFrequencyInfo 3 0) ev_config
               (mkPhysicalState (-5) 1.2))) = true.
Proof.
  split; [reflexivity|].
  apply (updated_soc_in_unit_interval 1 2 (mkFrequencyInfo 3 0) ev_config
           (mkPhysicalState (-5) 1.2)).
  right. reflexivity.
Defined.

(** The power a full update stores for an EV pile is never a charging
    power (negative) with the SOC at or above the maximum threshold, and
    never a discharging power (positive) with the SOC at or below the
    minimum threshold. *)
Theorem ev_pile_respects_soc_thresholds (last_full_update_time_s dt : float)
  (info : FrequencyInfo) (config : FrequencyControlConfigComponent)
  (state : PhysicalStateComponent) :
  type config = EV_PILE ->
  ((current_power_kW
      (update_device last_full_update_time_s dt info config state) <? 0)
   && (soc_max_threshold config
       <=? soc (update_device last_full_update_time_s dt info config state)))
  = false
  /\ ((0 <? current_power_kW
              (update_device last_full_update_time_s dt info config state))
      && (soc (update_device last_full_update_time_s dt info config state)
          <=? soc_min_threshold config))
     = false.
Proof.
  intros T. unfold update_device. simpl.
  set (s1 := soc (integrate_soc last_full_update_time_s dt config state)).
  set (p := clamp_power config (computed_power config s1 (freq_deviation_hz info))).
  unfold soc_guard. rewrite T.
  destruct ((p <? 0) && (soc_max_threshold config <=? s1)) eqn:A.
  - change (0 <? 0) with false. simpl. split; reflexivity.
  - destruct ((0 <? p) && (s1 <=? soc_min_threshold config)) eqn:B.
    + change (0 <? 0) with false. split; reflexivity.
    + split; assumption.
Qed.

(** A full pile in a frequency rise, which asks for more charging: 0 kW. *)
Lemma ev_pile_respects_soc_thresholds_witness :
  type ev_config = EV_PILE
  /\ current_power_kW
       (update_device 1 2 (mkFrequencyInfo 3 0.5) ev_config
          (mkPhysicalState 0 0.97)) = 0
  /\ ((current_power_kW
         (update_device 1 2 (mkFrequencyInfo 3 0.5) ev_config
            (mkPhysicalState 0 0.97)) <? 0)
      && (soc_max_threshold ev_config
          <=? soc (update_device 1 2 (mkFrequencyInfo 3 0.5) ev_config
                     (mkPhysicalState 0 0.97)))) = false.
Proof.
  split; [reflexivity|]. split; [vm_compute; reflexivity|].
  apply (ev_pile_respects_soc_thresholds 1 2 (mkFrequencyInfo 3 0.5) ev_config
           (mkPhysicalState 0 0.97)).
  reflexivity.
Defined.

(** *** What a full update leaves alone *)

Lemma update_entity_frame (t dt : float) (info : FrequencyInfo)
  (r : Registry Component) (e' : Entity) (ty : CompType) (e : Entity) :
  ty <> TyPhysicalStateComponent \/ e <> e' ->
  get ty e (update_entity t dt info r e') = get ty e r
  /\ last_id_ (update_entity t dt info r e') = last_id_ r.
Proof.
  intros H. unfold update_entity.
  destruct (get_FrequencyControlConfig e' r); [|auto].
  destruct (get_PhysicalState e' r); [|auto].
  split; [|reflexivity].
  unfold put_PhysicalState. apply EcsFacts.get_emplace_ne. exact H.
Qed.

(** A full update writes to the [PhysicalStateComponent]s of the managed
    entities and to nothing else: every other component of the registry
    (the configurations, the protective components, the states of the
    other entities) and the identifier counter are as before. *)
Theorem full_update_frame (t dt : float) (info : FrequencyInfo)
  (managed : list Entity) (r : Registry Component) (ty : CompType)
  (e : Entity) :
  ty <> TyPhysicalStateComponent \/ e ∉ managed ->
  get ty e (full_update t dt info managed r) = get ty e r
  /\ last_id_ (full_update t dt info managed r) = last_id_ r.
Proof.
  unfold full_update. revert r.
  induction managed as [|e' l IH]; intros r H; simpl; [auto|].
  assert (H1 : ty <> TyPhysicalStateComponent \/ e <> e').
  { destruct H as [H|H]; [left; exact H|]. right. intros ->. apply H. left. }
  assert (H2 : ty <> TyPhysicalStateComponent \/ e ∉ l).
  { destruct H as [H|H]; [left; exact H|]. right. intros Hin. apply H.
    right. exact Hin. }
  destruct (IH (update_entity t dt info r e') H2) as [I1 I2].
  destruct (update_entity_frame t dt info r e' ty e H1) as [U1 U2].
  split; congruence.
Qed.

(** A full update of the pile of [one_pile] leaves its configuration. *)
Lemma full_update_frame_witness :
  (TyFrequencyControlConfigComponent <> TyPhysicalStateComponent
   \/ 1%N ∉ [1%N])
  /\ get TyFrequencyControlConfigComponent 1%N
       (full_update 1 2 (mkFrequencyInfo 3 (-0.2)) [1%N] one_pile)
     = get TyFrequencyControlConfigComponent 1%N one_pile
  /\ last_id_ (full_update 1 2 (mkFrequencyInfo 3 (-0.2)) [1%N] one_pile)
     = last_id_ one_pile.
Proof.
  assert (H : TyFrequencyControlConfigComponent <> TyPhysicalStateComponent
              \/ 1%N ∉ [1%N]) by (left; discriminate).
  split; [exact H|].
  exact (full_update_frame 1 2 (mkFrequencyInfo 3 (-0.2)) [1%N] one_pile
           TyFrequencyControlConfigComponent 1%N H).
Defined.

(** *** The gating of the deliveries *)

Lemma full_updates_cons (o : outcome) (os : list outcome) :
  full_updates (o :: os)
  = ((if is_full_update o then 1 else 0) + full_updates os)%nat.
Proof.
  unfold full_updates. destruct o.
  - rewrite filter_cons_False by (simpl; discriminate). reflexivity.
  - rewrite filter_cons_False by (simpl; discriminate). reflexivity.
  - rewrite filter_cons_True by reflexivity. reflexivity.
Qed.

Lemma on_frequency_update_no_full_update (managed : list Entity)
  (info : FrequencyInfo) (st : VppState * Registry Component) :
  is_full_update (fst (on_frequency_update managed info st)) = false ->
  snd (snd (on_frequency_update managed info st)) = snd st
  /\ vpp_instance_last_full_update_time_s
       (fst (snd (on_frequency_update managed info st)))
     = vpp_instance_last_full_update_time_s (fst st)
  /\ vpp_instance_last_full_update_freq_dev_hz
       (fst (snd (on_frequency_update managed info st)))
     = vpp_instance_last_full_update_freq_dev_hz (fst st).
Proof.
  destruct st as [s r]. unfold on_frequency_update.
  destruct (stale s info); [simpl; auto|].
  destruct (gating _ info) as [[] d]; simpl; [discriminate | auto].
Qed.

(** Deliveries that cause no full update change no component: the
    registry, and the time and deviation of the last full update, are what
    they were, however many events were delivered. *)
Theorem no_full_update_no_change (managed : list Entity)
  (infos : list FrequencyInfo) (st : VppState * Registry Component) :
  full_updates (fst (deliver managed infos st)) = 0%nat ->
  snd (snd (deliver managed infos st)) = snd st
  /\ vpp_instance_last_full_update_time_s (fst (snd (deliver managed infos st)))
     = vpp_instance_last_full_update_time_s (fst st)
  /\ vpp_instance_last_full_update_freq_dev_hz
       (fst (snd (deliver managed infos st)))
     = vpp_instance_last_full_update_freq_dev_hz (fst st).
Proof.
  revert st. induction infos as [|info rest IH]; intros st; simpl; [auto|].
  pose proof (on_frequency_update_no_full_update managed info st) as H1.
  destruct (on_frequency_update managed info st) as [o st1].
  specialize (IH st1).
  destruct (deliver managed rest st1) as [os st2]. simpl in *.
  rewrite full_updates_cons. intros H0.
  destruct (is_full_update o); [discriminate|].
  destruct (H1 eq_refl) as (A1 & A2 & A3).
  destruct (IH H0) as (B1 & B2 & B3).
  repeat split; congruence.
Qed.

(** After the full update at 1 s: a sample too close in time and in
    frequency, then its repetition. *)
Lemma no_full_update_no_change_witness :
  full_updates
    (fst (deliver [1%N] [mkFrequencyInfo 1.5 0; mkFrequencyInfo 1.5 0]
            after_first_update)) = 0%nat
  /\ snd (snd (deliver [1%N] [mkFrequencyInfo 1.5 0; mkFrequencyInfo 1.5 0]
                 after_first_update)) = snd after_first_update.
Proof.
  assert (H : full_updates
                (fst (deliver [1%N] [mkFrequencyInfo 1.5 0; mkFrequencyInfo 1.5 0]
                        after_first_update)) = 0%nat)
    by (vm_compute; reflexivity).
  split; [exact H|].
  apply (no_full_update_no_change [1%N]
           [mkFrequencyInfo 1.5 0; mkFrequencyInfo 1.5 0] after_first_update H).
Defined.

(** The first event a controller receives, at a time that is not negative,
    always causes a full update: with a zero interval, so that no SOC is
    integrated, and it becomes the reference of the gating tests. *)
Theorem first_event_gives_full_update (managed : list Entity)
  (info : FrequencyInfo) (r : Registry Component) :
  (0 <=? current_sim_time_seconds info) = true ->
  on_frequency_update managed info (VppState_init, r)
  = (FullUpdate,
     ({| last_processed_event_time_s := current_sim_time_seconds info;
         vpp_instance_last_full_update_time_s := current_sim_time_seconds info;
         vpp_instance_last_full_update_freq_dev_hz := freq_deviation_hz info |},
      full_update (-1) 0 info managed r))
  /\ (forall config state,
        soc (update_device (-1) 0 info config state) = soc state).
Proof.
  intros H. split; [|reflexivity].
  unfold on_frequency_update, stale. simpl.
  destruct (current_sim_time_seconds info <=? -1) eqn:E.
  - pose proof (leb_trans _ _ _ H E) as F. vm_compute in F. discriminate.
  - reflexivity.
Qed.

Lemma first_event_gives_full_update_witness :
  (0 <=? 0.02) = true
  /\ fst (on_frequency_update [1%N] (mkFrequencyInfo 0.02 0)
            (VppState_init, one_pile)) = FullUpdate.
Proof.
  split; [reflexivity|].
  rewrite (proj1 (first_event_gives_full_update [1%N] (mkFrequencyInfo 0.02 0)
                    one_pile eq_refl)).
  reflexivity.
Defined.

Lemma on_frequency_update_time (managed : list Entity) (info : FrequencyInfo)
  (st : VppState * Registry Component) :
  (last_processed_event_time_s (fst st) <=? last_processed_event_time_s (fst st))
  = true ->
  (current_sim_time_seconds info <=? current_sim_time_seconds info) = true ->
  (last_processed_event_time_s (fst st)
   <=? last_processed_event_time_s
         (fst (snd (on_frequency_update managed info st)))) = true
  /\ (last_processed_event_time_s
        (fst (snd (on_frequency_update managed info st)))
      <=? last_processed_event_time_s
            (fst (snd (on_frequency_update managed info st)))) = true.
Proof.
  destruct st as [s r]. simpl. intros Hs Hi. unfold on_frequency_update.
  destruct (stale s info) eqn:E; [simpl; auto|].
  assert (L : (last_processed_event_time_s s <=? current_sim_time_seconds info)
              = true).
  { apply ltb_leb, leb_false_ltb; assumption. }
  destruct (gating _ info) as [[] d]; simpl; auto.
Qed.

(** The time of the last processed event never goes back, over any
    sequence of deliveries whose time stamps are numbers: an event at or
    before it is discarded, any other one replaces it. *)
Theorem processed_time_never_decreases (managed : list Entity)
  (infos : list FrequencyInfo) (st : VppState * Registry Component) :
  (last_processed_event_time_s (fst st) <=? last_processed_event_time_s (fst st))
  = true ->
  Forall (fun info =>
            (current_sim_time_seconds info <=? current_sim_time_seconds info)
            = true) infos ->
  (last_processed_event_time_s (fst st)
   <=? last_processed_event_time_s (fst (snd (deliver managed infos st))))
  = true.
Proof.
  intros Hs Hall. revert st Hs.
  induction Hall as [|info rest Hi _ IH]; intros st Hs; simpl; [exact Hs|].
  destruct (on_frequency_update_time managed info st Hs Hi) as [H1 H2].
  destruct (on_frequency_update managed info st) as [o st1].
  specialize (IH st1 H2).
  destruct (deliver managed rest st1) as [os st2]. simpl in *.
  exact (leb_trans _ _ _ H1 IH).
Qed.

(** Events at 2 s, 1 s and 3 s to a fresh controller: the clock of the
    controller ends at 3 s. *)
Lemma processed_time_never_decreases_witness :
  (last_processed_event_time_s VppState_init
   <=? last_processed_event_time_s VppState_init) = true
  /\ last_processed_event_time_s
       (fst (snd (deliver [1%N]
                    [mkFrequencyInfo 2 0; mkFrequencyInfo 1 0;
                     mkFrequencyInfo 3 0] (VppState_init, one_pile)))) = 3
  /\ (last_processed_event_time_s VppState_init
      <=? last_processed_event_time_s
            (fst (snd (deliver [1%N]
                         [mkFrequencyInfo 2 0; mkFrequencyInfo 1 0;
                          mkFrequencyInfo 3 0] (VppState_init, one_pile)))))
     = true.
Proof.
  split; [reflexivity|]. split; [vm_compute; reflexivity|].
  apply (processed_time_never_decreases [1%N]
           [mkFrequencyInfo 2 0; mkFrequencyInfo 1 0; mkFrequencyInfo 3 0]
           (VppState_init, one_pile)).
  - reflexivity.
  - repeat constructor.
Defined.

(** *** The order of the managed entities *)

Lemma put_PhysicalState_commute (e1 e2 : Entity)
  (s1 s2 : PhysicalStateComponent) (r : Registry Component) :
  e1 <> e2 ->
  put_PhysicalState e1 s1 (put_PhysicalState e2 s2 r)
  = put_PhysicalState e2 s2 (put_PhysicalState e1 s1 r).
Proof.
  intros Hne. unfold put_PhysicalState, emplace. simpl. f_equal.
  rewrite !lookup_insert_eq. simpl. rewrite !insert_insert_eq.
  f_equal. apply insert_insert_ne. congruence.
Qed.

Lemma update_entity_reads (t dt : float) (info : FrequencyInfo)
  (r : Registry Component) (e e' : Entity) :
  e <> e' ->
  get_FrequencyControlConfig e (update_entity t dt info r e')
  = get_FrequencyControlConfig e r
  /\ get_PhysicalState e (update_entity t dt info r e') = get_PhysicalState e r.
Proof.
  intros Hne. split; [apply update_entity_config|].
  unfold get_PhysicalState.
  rewrite (proj1 (update_entity_frame t dt info r e' TyPhysicalStateComponent e
                    (or_intror Hne))).
  reflexivity.
Qed.

Lemma update_entity_commute (t dt : float) (info : FrequencyInfo)
  (r : Registry Component) (e1 e2 : Entity) :
  update_entity t dt info (update_entity t dt info r e1) e2
  = update_entity t dt info (update_entity t dt info r e2) e1.
Proof.
  destruct (decide (e1 = e2)) as [->|Hne]; [reflexivity|].
  assert (Hne' : e2 <> e1) by congruence.
  destruct (update_entity_reads t dt info r e2 e1 Hne') as [C2 S2].
  destruct (update_entity_reads t dt info r e1 e2 Hne) as [C1 S1].
  unfold update_entity at 1 3. rewrite C1, S1, C2, S2.
  unfold update_entity.
  destruct (get_FrequencyControlConfig e1 r) as [c1|];
    destruct (get_PhysicalState e1 r) as [s1|];
    destruct (get_FrequencyControlConfig e2 r) as [c2|];
    destruct (get_PhysicalState e2 r) as [s2|]; try reflexivity.
  symmetry. apply put_PhysicalState_commute. exact Hne.
Qed.

(** The result of a full update does not depend on the order of the list
    of managed entities: the updates of two different devices commute. *)
Theorem full_update_order_irrelevant (t dt : float) (info : FrequencyInfo)
  (l1 l2 : list Entity) (r : Registry Component) :
  l1 ≡ₚ l2 ->
  full_update t dt info l1 r = full_update t dt info l2 r.
Proof.
  unfold full_update. intros Hp. revert r.
  induction Hp as [|x l l' _ IH|x y l|l l' l'' _ IH1 _ IH2]; intros r; simpl.
  - reflexivity.
  - apply IH.
  - rewrite update_entity_commute. reflexivity.
  - rewrite IH1. apply IH2.
Qed.

(** The pile and the ESS unit, in either order. *)
Lemma full_update_order_irrelevant_witness :
  [1%N; 2%N] ≡ₚ [2%N; 1%N]
  /\ full_update 1 2 (mkFrequencyInfo 3 (-0.2)) [1%N; 2%N] pile_and_ess
     = full_update 1 2 (mkFrequencyInfo 3 (-0.2)) [2%N; 1%N] pile_and_ess.
Proof.
  assert (H : [1%N; 2%N] ≡ₚ [2%N; 1%N]) by apply Permutation_swap.
  split; [exact H|].
  exact (full_update_order_irrelevant 1 2 (mkFrequencyInfo 3 (-0.2)) _ _
           pile_and_ess H).
Defined.

End VppFacts.

(** ** The scheduler *)

Module CoroFacts.
Import Events Coro.

Section Multimap.
Context {K V : Type}.

Lemma elem_of_multimap_emplace (leb : K -> K -> bool) (k : K) (v : V)
  (l : list (K * V)) (e : K * V) :
  e ∈ multimap_emplace leb k v l <-> e = (k, v) \/ e ∈ l.
Proof.
  induction l as [|[k' v'] l IH]; simpl.
  - rewrite elem_of_cons. reflexivity.
  - destruct (leb k' k).
    + rewrite !elem_of_cons, IH. tauto.
    + rewrite !elem_of_cons. tauto.
Qed.

Lemma Forall_multimap_emplace (P : K * V -> Prop) (leb : K -> K -> bool)
  (k : K) (v : V) (l : list (K * V)) :
  Forall P (multimap_emplace leb k v l) <-> P (k, v) /\ Forall P l.
Proof.
  rewrite !Forall_forall. split.
  - intros H. split.
    + apply H, elem_of_multimap_emplace. left. reflexivity.
    + intros e He. apply H, elem_of_multimap_emplace. right. exact He.
  - intros [Hk Hl] e He. apply elem_of_multimap_emplace in He as [->|He].
    + exact Hk.
    + apply Hl, He.
Qed.

End Multimap.

Lemma multimap_emplace_sorted {V : Type} (t : Z) (v : V) (l : list (Z * V)) :
  StronglySorted by_deadline l ->
  StronglySorted by_deadline (multimap_emplace Z.leb t v l).
Proof.
  induction 1 as [|[t' v'] l Hs IH Hall]; simpl.
  - repeat constructor.
  - destruct (Z.leb_spec t' t) as [Hle|Hlt].
    + constructor; [exact IH|].
      apply Forall_multimap_emplace. split; [exact Hle | exact Hall].
    + constructor; [constructor; assumption|].
      constructor; [unfold by_deadline; simpl; lia|].
      eapply Forall_impl; [exact Hall|].
      intros [t'' v'']. unfold by_deadline. simpl. lia.
Qed.

Section Kernel.
Context {payload handle handler M : Type}.

Local Abbreviation Scheduler := (Scheduler handle handler).
Local Abbreviation Machine := (Machine handle handler M).
Local Abbreviation Client := (Client payload handle handler M).
Local Abbreviation prog := (prog payload handle handler M).
Local Abbreviation cmd := (cmd payload handle handler).

(** *** Timers *)

(** What [migrate_due] leaves is a suffix of the timers, and what it
    moves goes to the back of the ready queue in the timers' order. *)
Lemma migrate_due_split (t : time_point) (timers : list (time_point * handle))
  (ready : list handle) :
  exists due,
    timers = due ++ fst (migrate_due t timers ready)
    /\ snd (migrate_due t timers ready) = ready ++ (snd <$> due)
    /\ Forall (fun e => (fst e <= t)%Z) due.
Proof.
  revert ready. induction timers as [|[d h] rest IH]; intros ready; simpl.
  - exists []. simpl. rewrite app_nil_r. auto.
  - destruct (Z.leb_spec d t) as [Hle|Hlt].
    + destruct (IH (ready ++ [h])) as (due & E1 & E2 & E3).
      exists ((d, h) :: due). simpl. split; [congruence|]. split.
      * rewrite E2, <- app_assoc. reflexivity.
      * constructor; [exact Hle | exact E3].
    + exists []. simpl. rewrite app_nil_r. auto.
Qed.

Lemma timers_ok_new : timers_ok (Scheduler_new : Scheduler).
Proof. split; constructor. Qed.

(** The 64-bit sum of two counts is their sum when that is representable. *)
Lemma time_add_representable (a b : Z) :
  representable (a + b) -> time_add a b = (a + b)%Z.
Proof.
  unfold representable, time_add, wrap_int64, int64_min, int64_max.
  intros H. rewrite Z.mod_small by lia. lia.
Qed.

Lemma schedule_after_timers_ok (d : duration) (h : handle) (s : Scheduler) :
  (0 <= d)%Z -> representable (now s + d) -> timers_ok s ->
  timers_ok (schedule_after d h s).
Proof.
  intros Hd Hr [Hs Hf]. split; simpl.
  - apply multimap_emplace_sorted, Hs.
  - apply Forall_multimap_emplace. split; [|exact Hf].
    unfold now in *. simpl. rewrite (time_add_representable _ _ Hr). lia.
Qed.

Lemma fire_timers_now (s : Scheduler) :
  timers_ok s -> (now s <= now (fire_timers s))%Z.
Proof.
  intros [_ Hf]. unfold fire_timers.
  destruct (timed_tasks_ s) as [|[d h] rest] eqn:E; [lia|].
  simpl. destruct (migrate_due _ _ _) as [timers ready].
  inversion Hf as [|e l Hd Hrest]; subst. exact Hd.
Qed.

Lemma fire_timers_ok (s : Scheduler) :
  timers_ok s -> timers_ok (fire_timers s).
Proof.
  intros [Hs Hf]. unfold fire_timers.
  destruct (timed_tasks_ s) as [|[d h] rest] eqn:E; [split; rewrite ?E; assumption|].
  cbn [set_time timed_tasks_ ready_tasks_ current_time_]. rewrite E.
  destruct (migrate_due_split d ((d, h) :: rest) (ready_tasks_ s))
    as (due & E1 & _ & _).
  destruct (migrate_due d ((d, h) :: rest) (ready_tasks_ s))
    as [timers ready] eqn:Em.
  simpl in E1. unfold timers_ok, now. simpl.
  assert (Hall : Forall (fun e => (d <= fst e)%Z) ((d, h) :: rest)).
  { inversion Hs; subst. constructor; [simpl; lia | assumption]. }
  rewrite E1 in Hs, Hall.
  apply StronglySorted_app_1_r in Hs. apply Forall_app in Hall as [_ Hall].
  split; assumption.
Qed.

(** *** Induction on the interpreter *)

Section ExecInduction.
Variable cl : Client.
Variable A : cmd -> Prop.
Variable R : Machine -> Machine -> Prop.

Hypothesis client_ok : client_calls A cl.
Hypothesis R_refl : forall w, R w w.
Hypothesis R_trans : forall w1 w2 w3, R w1 w2 -> R w2 w3 -> R w1 w3.
Hypothesis R_schedule :
  forall w h, A (CSchedule h) -> R w (on_sched (schedule h) w).
Hypothesis R_schedule_after :
  forall w d h, A (CScheduleAfter d h) -> R w (do_schedule_after d h w).
Hypothesis R_register :
  forall w id f, A (CRegister id f) -> R w (do_register id f w).
Hypothesis R_set_time :
  forall w t, A (CSetTime t) -> R w (on_sched (set_time t) w).
Hypothesis R_advance_time :
  forall w d, A (CAdvanceTime d) -> R w (on_sched (advance_time d) w).
Hypothesis R_store : forall w m, R w (set_mem m w).
Hypothesis R_trigger :
  forall (run : prog -> Machine -> option Machine) id data w w',
    A (CTrigger id data) ->
    (forall p y y', prog_calls A p -> run p y = Some y' -> R y y') ->
    trigger_event_with run cl id data w = Some w' -> R w w'.

Lemma exec_ind (fuel : nat) :
  forall p w w', prog_calls A p -> exec cl fuel p w = Some w' -> R w w'.
Proof.
  induction fuel as [|n IH]; intros p w w' Hp He; [discriminate|].
  destruct Hp as [|c k Hc Hk|k Hk|k Hk|k Hk|m k Hk]; simpl in He.
  - injection He as <-. apply R_refl.
  - destruct c as [h|d h|id f|id data|t|d|h].
    + eapply R_trans; [apply R_schedule, Hc | eapply IH; eauto].
    + eapply R_trans; [apply R_schedule_after, Hc | eapply IH; eauto].
    + eapply R_trans; [apply R_register, Hc | eapply IH; eauto].
    + destruct (trigger_event_with _ _ _ _ _) as [w1|] eqn:Et;
        [|discriminate].
      eapply R_trans; [|eapply IH; eauto].
      eapply R_trigger; [exact Hc| |exact Et].
      intros p y y' Hp Hy. eapply IH; eauto.
    + eapply R_trans; [apply R_set_time, Hc | eapply IH; eauto].
    + eapply R_trans; [apply R_advance_time, Hc | eapply IH; eauto].
    + destruct (exec cl n (resume_code cl h) w) as [w1|] eqn:Er;
        [|discriminate].
      eapply R_trans; [|eapply IH; eauto].
      eapply IH; [|exact Er]. apply client_ok.
  - eapply IH; [apply Hk | exact He].
  - eapply IH; [apply Hk | exact He].
  - eapply IH; [apply Hk | exact He].
  - eapply R_trans; [apply R_store | eapply IH; eauto].
Qed.

End ExecInduction.

(** The bound of the interpreter is only a bound: a larger one gives the
    same result. *)
Lemma call_handlers_mono (run run' : prog -> Machine -> option Machine)
  (body : handler -> prog) (c : nat) :
  (forall p y y', run p y = Some y' -> run' p y = Some y') ->
  forall (hs : list (sink handler)) (x x' : Machine),
    call_handlers run body c hs x = Some x' ->
    call_handlers run' body c hs x = Some x'.
Proof.
  intros H. induction hs as [|s hs IH]; intros x x'; simpl; [auto|].
  destruct (run _ _) as [x1|] eqn:E; [|discriminate].
  rewrite (H _ _ _ E). apply IH.
Qed.

Lemma exec_fuel_mono (cl : Client) (n : nat) :
  forall (m : nat) (p : prog) (w w' : Machine),
    n <= m -> exec cl n p w = Some w' -> exec cl m p w = Some w'.
Proof.
  induction n as [|n IH]; intros m p w w' Hle; [discriminate|].
  destruct m as [|m]; [lia|]. assert (Hle' : n <= m) by lia.
  destruct p as [|c k|k|k|k|x k]; simpl; auto.
  assert (Hc :
    forall w1,
      match c with
      | CSchedule h => Some (on_sched (schedule h) w)
      | CScheduleAfter d h => Some (do_schedule_after d h w)
      | CRegister id f => Some (do_register id f w)
      | CTrigger id data => trigger_event_with (exec cl n) cl id data w
      | CSetTime t => Some (on_sched (set_time t) w)
      | CAdvanceTime d => Some (on_sched (advance_time d) w)
      | CResume h => exec cl n (resume_code cl h) w
      end = Some w1 ->
      match c with
      | CSchedule h => Some (on_sched (schedule h) w)
      | CScheduleAfter d h => Some (do_schedule_after d h w)
      | CRegister id f => Some (do_register id f w)
      | CTrigger id data => trigger_event_with (exec cl m) cl id data w
      | CSetTime t => Some (on_sched (set_time t) w)
      | CAdvanceTime d => Some (on_sched (advance_time d) w)
      | CResume h => exec cl m (resume_code cl h) w
      end = Some w1).
  { intros w1. destruct c; auto.
    unfold trigger_event_with. apply call_handlers_mono.
    intros q y y'. apply IH, Hle'. }
  destruct (match c with CSchedule _ => _ | _ => _ end) as [w1|] eqn:E at 1;
    [|discriminate].
  rewrite (Hc w1 E). apply IH, Hle'.
Qed.

(** The case of [trigger_event] for a relation that every step of
    [trigger_event] itself respects. *)
Lemma trigger_case_simple (cl : Client) (A : cmd -> Prop)
  (R : Machine -> Machine -> Prop) :
  client_calls A cl ->
  (forall w, R w w) ->
  (forall w1 w2 w3, R w1 w2 -> R w2 w3 -> R w1 w3) ->
  (forall w id, R w (begin_trigger id w)) ->
  (forall w c s, R w (log_invocation c s w)) ->
  forall (run : prog -> Machine -> option Machine) id data w w',
    (forall p y y', prog_calls A p -> run p y = Some y' -> R y y') ->
    trigger_event_with run cl id data w = Some w' -> R w w'.
Proof.
  intros Hcl Hrefl Htrans Hbegin Hlog run id data w w' Hrun.
  unfold trigger_event_with.
  generalize (next_call w) as c. intros c.
  generalize (equal_range id (sched w)) as hs. intros hs He.
  apply (Htrans _ _ _ (Hbegin w id)).
  revert He. generalize (begin_trigger id w) as x.
  induction hs as [|s hs IH]; intros x He; simpl in He.
  - injection He as <-. apply Hrefl.
  - destruct (run _ _) as [x1|] eqn:E1; [|discriminate].
    apply (Htrans _ _ _ (Hlog x c s)).
    eapply Htrans; [|apply IH, He].
    eapply Hrun; [|exact E1]. apply Hcl.
Qed.

(** *** The clock *)

Lemma keeps_time_refl (w : Machine) : keeps_time w w.
Proof.
  split; [reflexivity|]. exists []. rewrite app_nil_r. auto.
Qed.

Lemma keeps_time_trans (w1 w2 w3 : Machine) :
  keeps_time w1 w2 -> keeps_time w2 w3 -> keeps_time w1 w3.
Proof.
  intros [E1 (c1 & L1 & H1)] [E2 (c2 & L2 & H2)]. split; [congruence|].
  exists (c1 ++ c2). split; [rewrite L2, L1, app_assoc; reflexivity|].
  intros Hr Hok. apply Forall_app in Hr as [R1 R2]. auto.
Qed.

(** A step that touches neither the clock, nor the timers, nor the log of
    the [schedule_after] calls. *)
Lemma keeps_time_same (w w' : Machine) :
  now (sched w') = now (sched w) ->
  timed_tasks_ (sched w') = timed_tasks_ (sched w) ->
  timer_log w' = timer_log w -> keeps_time w w'.
Proof.
  intros En Et El. split; [exact En|]. exists []. rewrite app_nil_r.
  split; [exact El|]. intros _. unfold timers_ok. rewrite En, Et. auto.
Qed.

(** A timer made by [co_await delay(d)] has a positive delay, whatever [d]
    is: the awaiter does not suspend when [d <= 0]. *)
Lemma co_await_delay_time_safe (d : duration) (h : handle) (k : prog) :
  prog_calls time_safe k -> prog_calls time_safe (co_await_delay d h k).
Proof.
  intros Hk. unfold co_await_delay. destruct (Z.leb_spec d 0); [exact Hk|].
  constructor; [simpl; lia | constructor].
Qed.

Lemma co_await_event_time_safe (id : EventId) (f : handler) :
  prog_calls time_safe (co_await_event id f : prog).
Proof. repeat constructor. Qed.

Lemma exec_keeps_time (cl : Client) (fuel : nat) (p : prog) (w w' : Machine) :
  client_calls time_safe cl -> prog_calls time_safe p ->
  exec cl fuel p w = Some w' -> keeps_time w w'.
Proof.
  intros Hcl. revert p w w'.
  apply (exec_ind cl time_safe keeps_time Hcl keeps_time_refl
           keeps_time_trans).
  - intros w h _. apply keeps_time_same; reflexivity.
  - intros w d h Hd. split; [reflexivity|].
    exists [(current_time_ (sched w), d)]. split; [reflexivity|].
    intros Hr Hok. apply Forall_cons in Hr as [Hr _].
    apply schedule_after_timers_ok; [exact Hd | exact Hr | exact Hok].
  - intros w id f _. apply keeps_time_same; reflexivity.
  - intros w t [].
  - intros w d [].
  - intros w m. apply keeps_time_same; reflexivity.
  - intros run id data w w' _.
    apply (trigger_case_simple cl time_safe keeps_time Hcl keeps_time_refl
             keeps_time_trans).
    + intros x i. apply keeps_time_same; reflexivity.
    + intros x c s. apply keeps_time_same; reflexivity.
Qed.

Lemma run_one_step_now (cl : Client) (fuel : nat) (w w' : Machine) (b : bool) :
  client_calls time_safe cl ->
  run_one_step cl fuel w = Some (b, w') ->
  exists calls,
    timer_log w' = timer_log w ++ calls
    /\ (deadlines_representable calls -> timers_ok (sched w) ->
        (now (sched w) <= now (sched w'))%Z /\ timers_ok (sched w')).
Proof.
  intros Hcl. unfold run_one_step.
  destruct (ready_tasks_ (sched w)) as [|h rest] eqn:Er.
  - destruct (timed_tasks_ (sched w)) as [|e l] eqn:Et; intros [= <- <-];
      exists []; rewrite app_nil_r; (split; [reflexivity|]); intros _ Hok.
    + split; [lia | exact Hok].
    + split; [apply fire_timers_now, Hok | apply fire_timers_ok, Hok].
  - destruct (done cl h _).
    + intros [= <- <-]. exists []. rewrite app_nil_r.
      split; [reflexivity|]. intros _ Hok.
      split; [unfold now; simpl; lia | exact Hok].
    + destruct (exec cl fuel _ _) as [w2|] eqn:Ex; intros [= <- <-].
      apply exec_keeps_time in Ex as [E (calls & L & H)];
        [|exact Hcl|apply Hcl].
      exists calls. split; [exact L|]. intros Hr Hok.
      split; [rewrite E; unfold now; simpl; lia | apply H; assumption].
Qed.

Lemma perform_now (cl : Client) (fuel : nat) (a : action payload handle handler M)
  (w w' : Machine) :
  client_calls time_safe cl -> action_calls time_safe a ->
  perform cl fuel a w = Some w' ->
  exists calls,
    timer_log w' = timer_log w ++ calls
    /\ (deadlines_representable calls -> timers_ok (sched w) ->
        (now (sched w) <= now (sched w'))%Z /\ timers_ok (sched w')).
Proof.
  intros Hcl Ha. destruct a as [|p]; simpl.
  - destruct (run_one_step cl fuel w) as [[b w1]|] eqn:E; intros [= <-].
    eapply run_one_step_now; eauto.
  - intros Ex. apply exec_keeps_time in Ex as [E (calls & L & H)];
      [|exact Hcl|exact Ha].
    exists calls. split; [exact L|]. intros Hr Hok.
    split; [rewrite E; lia | apply H; assumption].
Qed.

Lemma last_cons {X : Type} (a d : X) (l : list X) :
  List.last (a :: l) d = List.last l a.
Proof.
  revert a d. induction l as [|b l IH]; intros a d; [reflexivity|].
  change (List.last (a :: b :: l) d) with (List.last (b :: l) d).
  rewrite (IH b d), (IH b a). reflexivity.
Qed.

Lemma drive_now (cl : Client) (fuel : nat)
  (acts : list (action payload handle handler M)) :
  client_calls time_safe cl -> Forall (action_calls time_safe) acts ->
  forall (w : Machine) (ws : list Machine),
    drive cl fuel acts w = Some ws ->
    exists calls,
      timer_log (List.last ws w) = timer_log w ++ calls
      /\ (deadlines_representable calls -> timers_ok (sched w) ->
          StronglySorted Z.le ((fun x => now (sched x)) <$> (w :: ws))).
Proof.
  intros Hcl Hacts. induction Hacts as [|a acts Ha _ IH]; intros w ws; simpl.
  - intros [= <-]. exists []. rewrite app_nil_r. split; [reflexivity|].
    intros _ _. repeat constructor.
  - destruct (perform cl fuel a w) as [w1|] eqn:Ep; [|discriminate].
    destruct (drive cl fuel acts w1) as [ws1|] eqn:Ed; [|discriminate].
    intros [= <-].
    destruct (perform_now cl fuel a w w1 Hcl Ha Ep) as (c1 & L1 & H1).
    destruct (IH w1 ws1 Ed) as (c2 & L2 & H2).
    exists (c1 ++ c2). split.
    { rewrite last_cons, L2, L1, app_assoc. reflexivity. }
    intros Hr Hok. apply Forall_app in Hr as [R1 R2].
    destruct (H1 R1 Hok) as [Hle Hok1].
    specialize (H2 R2 Hok1). rewrite !fmap_cons in H2 |- *.
    constructor; [exact H2|].
    apply StronglySorted_inv in H2 as [_ Hall].
    constructor; [exact Hle|].
    eapply Forall_impl; [exact Hall|]. intros t Ht. simpl in Ht. lia.
Qed.

(** C3 (as amended): from a fresh scheduler, under client code that makes
    no direct [set_time] or [advance_time] call and schedules every timer
    with a non-negative delay, and in a run all of whose calls of
    [schedule_after] have a representable deadline [now + delay], the
    values of [now()] after the successive calls of [run_one_step] (and
    the client code in between) never decrease. *)
Theorem now_is_monotone (cl : Client) (fuel : nat)
  (acts : list (action payload handle handler M)) (m : M)
  (ws : list Machine) :
  client_calls time_safe cl ->
  Forall (action_calls time_safe) acts ->
  drive cl fuel acts (Machine_new m) = Some ws ->
  deadlines_representable (timer_log (List.last ws (Machine_new m))) ->
  StronglySorted Z.le ((fun x => now (sched x)) <$> (Machine_new m :: ws)).
Proof.
  intros Hcl Hacts Hd Hr.
  destruct (drive_now cl fuel acts Hcl Hacts (Machine_new m) ws Hd)
    as (calls & L & H).
  simpl in L. rewrite L in Hr. apply H; [exact Hr | apply timers_ok_new].
Qed.

(** *** The clock under any delays *)

Lemma prog_calls_weaken (A B : cmd -> Prop) (p : prog) :
  (forall c, A c -> B c) -> prog_calls A p -> prog_calls B p.
Proof. intros H. induction 1; constructor; auto. Qed.

Lemma client_calls_weaken (A B : cmd -> Prop) (cl : Client) :
  (forall c, A c -> B c) -> client_calls A cl -> client_calls B cl.
Proof.
  intros H [H1 H2]. split; intros; eapply prog_calls_weaken; eauto.
Qed.

Lemma time_safe_no_clock_calls (c : cmd) : time_safe c -> no_clock_calls c.
Proof. destruct c; simpl; auto. Qed.

Lemma keeps_clock_refl (w : Machine) : keeps_clock w w.
Proof. split; auto. Qed.

Lemma keeps_clock_trans (w1 w2 w3 : Machine) :
  keeps_clock w1 w2 -> keeps_clock w2 w3 -> keeps_clock w1 w3.
Proof. intros [E1 H1] [E2 H2]. split; [congruence | auto]. Qed.

Lemma keeps_clock_same (w w' : Machine) :
  now (sched w') = now (sched w) ->
  timed_tasks_ (sched w') = timed_tasks_ (sched w) -> keeps_clock w w'.
Proof. intros En Et. split; [exact En|]. rewrite Et. auto. Qed.

(** Client code that calls neither [set_time] nor [advance_time] leaves
    the clock where it is. *)
Lemma exec_keeps_clock (cl : Client) (fuel : nat) (p : prog) (w w' : Machine) :
  client_calls no_clock_calls cl -> prog_calls no_clock_calls p ->
  exec cl fuel p w = Some w' -> keeps_clock w w'.
Proof.
  intros Hcl. revert p w w'.
  apply (exec_ind cl no_clock_calls keeps_clock Hcl keeps_clock_refl
           keeps_clock_trans).
  - intros w h _. apply keeps_clock_same; reflexivity.
  - intros w d h _. split; [reflexivity|]. simpl.
    apply multimap_emplace_sorted.
  - intros w id f _. apply keeps_clock_same; reflexivity.
  - intros w t [].
  - intros w d [].
  - intros w m. apply keeps_clock_same; reflexivity.
  - intros run id data w w' _.
    apply (trigger_case_simple cl no_clock_calls keeps_clock Hcl
             keeps_clock_refl keeps_clock_trans).
    + intros x i. apply keeps_clock_same; reflexivity.
    + intros x c s. apply keeps_clock_same; reflexivity.
Qed.

Lemma fire_timers_sorted (s : Scheduler) :
  StronglySorted by_deadline (timed_tasks_ s) ->
  StronglySorted by_deadline (timed_tasks_ (fire_timers s)).
Proof.
  intros Hs. unfold fire_timers.
  destruct (timed_tasks_ s) as [|[d h] rest] eqn:E; [rewrite E; exact Hs|].
  cbn [set_time timed_tasks_ ready_tasks_ current_time_]. rewrite E.
  destruct (migrate_due_split d ((d, h) :: rest) (ready_tasks_ s))
    as (due & E1 & _ & _).
  destruct (migrate_due d ((d, h) :: rest) (ready_tasks_ s))
    as [timers ready] eqn:Em.
  simpl in E1. simpl. rewrite E1 in Hs.
  apply StronglySorted_app_1_r in Hs. exact Hs.
Qed.

(** The inner loop of [run_until] empties the ready queue at the current
    time. *)
Lemma drain_ready_clock (cl : Client) (fuel : nat) :
  client_calls no_clock_calls cl ->
  forall w w' : Machine,
    drain_ready cl fuel w = Some w' ->
    now (sched w') = now (sched w)
    /\ (StronglySorted by_deadline (timed_tasks_ (sched w)) ->
        StronglySorted by_deadline (timed_tasks_ (sched w')))
    /\ ready_tasks_ (sched w') = [].
Proof.
  intros Hcl. induction fuel as [|n IH]; intros w w'; simpl; [discriminate|].
  destruct (ready_tasks_ (sched w)) as [|h rest] eqn:Er.
  - intros [= <-]. auto.
  - destruct (done cl h _).
    + intros E. apply IH in E as (E1 & E2 & E3). auto.
    + destruct (exec cl n _ _) as [w2|] eqn:Ex; [|discriminate].
      intros E. apply IH in E as (E1 & E2 & E3).
      apply exec_keeps_clock in Ex as [E4 E5]; [|exact Hcl|apply Hcl].
      split; [rewrite E1, E4; reflexivity|]. split; [|exact E3].
      intros Hok. apply E2, E5, Hok.
Qed.

(** C8: with an empty ready queue and one pending timer, at a deadline
    [d] after [now], one call of [run_one_step] sets [now] to [d],
    readies that continuation, empties the timer queue and returns
    [true]. *)
Theorem timer_jump (cl : Client) (fuel : nat) (w : Machine) (d : time_point)
  (h : handle) :
  ready_tasks_ (sched w) = [] ->
  timed_tasks_ (sched w) = [(d, h)] ->
  (now (sched w) < d)%Z ->
  exists w',
    run_one_step cl fuel w = Some (true, w')
    /\ now (sched w') = d
    /\ ready_tasks_ (sched w') = [h]
    /\ timed_tasks_ (sched w') = []
    /\ event_handlers_ (sched w') = event_handlers_ (sched w)
    /\ mem w' = mem w.
Proof.
  intros Hr Ht _. unfold run_one_step. rewrite Hr, Ht.
  eexists. split; [reflexivity|].
  unfold on_sched, fire_timers. rewrite Ht. simpl.
  rewrite Ht, Hr. simpl. rewrite Z.leb_refl. simpl. auto.
Qed.

(** *** class Task *)

(** C10: after [detach()], [is_done()] is [true] whatever the state of
    the coroutine; [detach] leaves the machine (and so every frame) as
    it is, it only nulls the handle; and the destructor of a detached
    Task destroys nothing. *)
Theorem detach_releases_the_frame (cl : Client) (t : Task handle)
  (w : Machine) :
  is_done cl (fst (detach t w)) (snd (detach t w)) = true
  /\ handle_ (fst (detach t w)) = None
  /\ snd (detach t w) = w
  /\ Task_destructor cl (fst (detach t w)) (snd (detach t w)) = w
  /\ (forall fuel, Task_resume cl fuel (fst (detach t w)) (snd (detach t w))
                   = Some w).
Proof. repeat split. Qed.

(** *** Events *)







Lemma extends_begin_trigger (w : Machine) (id : EventId) :
  extends w (begin_trigger id w).
Proof.
  unfold extends. simpl. split; [lia|]. split; [lia|]. split.
  - intros e He. apply list_elem_of_filter in He as [_ He]. left. exact He.
  - exists []. rewrite app_nil_r. split; [reflexivity | constructor].
Qed.

Lemma filter_none {X : Type} (P : X -> Prop) `{forall x, Decision (P x)}
  (l : list X) :
  Forall (fun x => ~ P x) l -> filter P l = [].
Proof.
  induction 1 as [|x l Hx _ IH]; [reflexivity|].
  rewrite filter_cons_False by exact Hx. exact IH.
Qed.

Lemma prog_calls_True (p : prog) : prog_calls (fun _ => True) p.
Proof. induction p; constructor; auto. Qed.

Lemma client_calls_True (cl : Client) : client_calls (fun _ => True) cl.
Proof. split; intros; apply prog_calls_True. Qed.













Lemma keeps_fresh_same (w w' : Machine) :
  event_handlers_ (sched w') = event_handlers_ (sched w) ->
  next_sink w' = next_sink w -> keeps_fresh w w'.
Proof.
  intros Eh Es. unfold keeps_fresh, sink_ids_fresh. rewrite Eh, Es. auto.
Qed.

Lemma exec_keeps_fresh (cl : Client) (fuel : nat) (p : prog) (w w' : Machine) :
  exec cl fuel p w = Some w' -> keeps_fresh w w'.
Proof.
  revert p w w'.
  assert (Hrefl : forall w : Machine, keeps_fresh w w).
  { intros w. apply keeps_fresh_same; reflexivity. }
  assert (Htrans : forall w1 w2 w3 : Machine,
             keeps_fresh w1 w2 -> keeps_fresh w2 w3 -> keeps_fresh w1 w3).
  { intros w1 w2 w3 [H1 H1'] [H2 H2']. split; [lia | auto]. }
  assert (H : forall p w w', prog_calls (fun _ => True) p ->
                             exec cl fuel p w = Some w' -> keeps_fresh w w').
  { apply (exec_ind cl (fun _ => True) keeps_fresh (client_calls_True cl)
             Hrefl Htrans).
    - intros w h _. apply keeps_fresh_same; reflexivity.
    - intros w d h _. apply keeps_fresh_same; reflexivity.
    - intros w id f _. split; [simpl; lia|].
      unfold sink_ids_fresh. simpl. intros Hf.
      apply Forall_multimap_emplace. split; [simpl; lia|].
      eapply Forall_impl; [exact Hf|]. intros e He. simpl in He. lia.
    - intros w t _. apply keeps_fresh_same; reflexivity.
    - intros w d _. apply keeps_fresh_same; reflexivity.
    - intros w m. apply keeps_fresh_same; reflexivity.
    - intros run id data w w' _.
      apply (trigger_case_simple cl (fun _ => True) keeps_fresh
               (client_calls_True cl) Hrefl Htrans).
      + intros x i. split; [simpl; lia|].
        unfold sink_ids_fresh. simpl. intros Hf.
        apply Forall_forall. intros e He.
        apply list_elem_of_filter in He as [_ He].
        rewrite Forall_forall in Hf. apply Hf, He.
      + intros x c s. apply keeps_fresh_same; reflexivity. }
  intros p w w'. apply H, prog_calls_True.
Qed.

Lemma sink_ids_fresh_new (m : M) : sink_ids_fresh (Machine_new m : Machine).
Proof. constructor. Qed.


Lemma fire_timers_handlers (s : Scheduler) :
  event_handlers_ (fire_timers s) = event_handlers_ s.
Proof.
  unfold fire_timers. destruct (timed_tasks_ s) as [|[d h] rest]; [reflexivity|].
  destruct (migrate_due _ _ _). reflexivity.
Qed.

Lemma run_one_step_keeps_fresh (cl : Client) (fuel : nat) (w w' : Machine)
  (b : bool) :
  sink_ids_fresh w -> run_one_step cl fuel w = Some (b, w') ->
  sink_ids_fresh w'.
Proof.
  intros Hf. unfold run_one_step.
  destruct (ready_tasks_ (sched w)) as [|h rest].
  - destruct (timed_tasks_ (sched w)); intros [= <- <-]; [exact Hf|].
    unfold sink_ids_fresh. simpl. rewrite fire_timers_handlers. exact Hf.
  - destruct (done cl h _); [intros [= <- <-]; exact Hf|].
    destruct (exec cl fuel _ _) as [w2|] eqn:Ex; intros [= <- <-].
    apply exec_keeps_fresh in Ex as [_ H]. apply H, Hf.
Qed.

Lemma drive_keeps_fresh (cl : Client) (fuel : nat)
  (acts : list (action payload handle handler M)) :
  forall (w : Machine) (ws : list Machine),
    sink_ids_fresh w -> drive cl fuel acts w = Some ws ->
    Forall sink_ids_fresh ws.
Proof.
  induction acts as [|a acts IH]; intros w ws Hf; simpl.
  - intros [= <-]. constructor.
  - destruct (perform cl fuel a w) as [w1|] eqn:Ep; [|discriminate].
    destruct (drive cl fuel acts w1) as [ws1|] eqn:Ed; [|discriminate].
    intros [= <-].
    assert (Hf1 : sink_ids_fresh w1).
    { destruct a as [|p]; simpl in Ep.
      - destruct (run_one_step cl fuel w) as [[b w2]|] eqn:Es; [|discriminate].
        injection Ep as <-. eapply run_one_step_keeps_fresh; eauto.
      - apply exec_keeps_fresh in Ep as [_ H]. apply H, Hf. }
    constructor; [exact Hf1 | exact (IH w1 ws1 Hf1 Ed)].
Qed.

(** *** The order of the queues *)

Lemma filter_keeps_all {X : Type} (P : X -> Prop) `{forall x, Decision (P x)}
  (l : list X) :
  Forall P l -> filter P l = l.
Proof.
  induction 1 as [|x l Hx _ IH]; [reflexivity|].
  rewrite filter_cons_True by exact Hx. rewrite IH. reflexivity.
Qed.

Lemma multimap_emplace_position {V : Type} (t : Z) (v : V) (l : list (Z * V)) :
  StronglySorted by_deadline l ->
  multimap_emplace Z.leb t v l
  = filter (fun e => (fst e <= t)%Z) l
    ++ (t, v) :: filter (fun e => (t < fst e)%Z) l.
Proof.
  induction 1 as [|[t' v'] l Hs IH Hall]; [reflexivity|].
  cbn [multimap_emplace]. destruct (Z.leb_spec t' t) as [Hle|Hlt].
  - rewrite filter_cons_True by (simpl; lia).
    rewrite (filter_cons_False (fun e : Z * V => (t < fst e)%Z))
      by (simpl; lia).
    rewrite IH. reflexivity.
  - assert (Hall' : Forall (fun e : Z * V => (t < fst e)%Z) l).
    { eapply Forall_impl; [exact Hall|].
      intros [t'' v'']. unfold by_deadline. simpl. lia. }
    rewrite filter_cons_False by (simpl; lia).
    rewrite filter_cons_True by (simpl; lia).
    rewrite (filter_keeps_all (fun e : Z * V => (t < fst e)%Z)) by exact Hall'.
    rewrite (filter_none (fun e : Z * V => (fst e <= t)%Z));
      [reflexivity|].
    eapply Forall_impl; [exact Hall'|]. intros [t'' v'']. simpl. lia.
Qed.

Lemma multimap_emplace_Permutation {K V : Type} (leb : K -> K -> bool) (k : K)
  (v : V) (l : list (K * V)) :
  multimap_emplace leb k v l ≡ₚ (k, v) :: l.
Proof.
  induction l as [|[k' v'] l IH]; simpl; [reflexivity|].
  destruct (leb k' k); [|reflexivity].
  rewrite IH. apply Permutation_swap.
Qed.

(** *** The timer queue *)

(** [schedule_after(delay, h)] gives the new timer the deadline that the
    64-bit addition [now() + delay] computes (the sum itself whenever it is
    representable), and puts it behind every pending timer whose deadline
    is not later (timers of equal deadline keep the order in which they
    were scheduled) and before every later one; the queue stays ordered
    and nothing else changes. *)
Theorem schedule_after_position (d : duration) (h : handle) (s : Scheduler) :
  StronglySorted by_deadline (timed_tasks_ s) ->
  timed_tasks_ (schedule_after d h s)
  = filter (fun e => (fst e <= time_add (now s) d)%Z) (timed_tasks_ s)
    ++ (time_add (now s) d, h)
       :: filter (fun e => (time_add (now s) d < fst e)%Z) (timed_tasks_ s)
  /\ (representable (now s + d) -> time_add (now s) d = (now s + d)%Z)
  /\ StronglySorted by_deadline (timed_tasks_ (schedule_after d h s))
  /\ ready_tasks_ (schedule_after d h s) = ready_tasks_ s
  /\ event_handlers_ (schedule_after d h s) = event_handlers_ s
  /\ now (schedule_after d h s) = now s.
Proof.
  intros Hs. split; [|split; [|split; [|auto]]].
  - apply multimap_emplace_position, Hs.
  - apply time_add_representable.
  - apply multimap_emplace_sorted, Hs.
Qed.

(** On an ordered queue none of whose timers is before [d], the loop that
    moves the due timers takes exactly those of deadline [d], in order. *)
Lemma migrate_due_sorted (d : time_point)
  (timers : list (time_point * handle)) :
  StronglySorted by_deadline timers ->
  Forall (fun e => (d <= fst e)%Z) timers ->
  forall ready,
    migrate_due d timers ready
    = (filter (fun e => (d < fst e)%Z) timers,
       ready ++ (snd <$> filter (fun e => fst e = d) timers)).
Proof.
  induction 1 as [|[t h] l Hs IH Hall]; intros Hge ready.
  - simpl. rewrite app_nil_r. reflexivity.
  - apply Forall_cons in Hge as [Ht Hge]. simpl in Ht.
    cbn [migrate_due]. destruct (Z.leb_spec t d) as [Hle|Hlt].
    + assert (t = d) as -> by lia.
      rewrite (IH Hge).
      rewrite filter_cons_False by (simpl; lia).
      rewrite filter_cons_True by reflexivity.
      rewrite fmap_cons, <- app_assoc. reflexivity.
    + assert (Hall' : Forall (fun e : Z * handle => (d < fst e)%Z) l).
      { eapply Forall_impl; [exact Hall|].
        intros [t'' v'']. unfold by_deadline. simpl. lia. }
      rewrite filter_cons_True by (simpl; lia).
      rewrite filter_cons_False by (simpl; lia).
      rewrite (filter_keeps_all (fun e : Z * handle => (d < fst e)%Z))
        by exact Hall'.
      rewrite (filter_none (fun e : Z * handle => fst e = d));
        [rewrite app_nil_r; reflexivity|].
      eapply Forall_impl; [exact Hall'|]. intros [t'' v'']. simpl. lia.
Qed.

(** With an empty ready queue and at least one timer, [run_one_step] sets
    the clock to the earliest deadline [d], moves every timer of deadline
    [d] to the ready queue, in the order in which they were scheduled,
    leaves the later timers pending, and returns [true]; it resumes
    nothing, and the subscriptions and the client's memory are unchanged. *)
Theorem run_one_step_fires_earliest (cl : Client) (fuel : nat) (w : Machine)
  (d : time_point) (h : handle) (rest : list (time_point * handle)) :
  ready_tasks_ (sched w) = [] ->
  timed_tasks_ (sched w) = (d, h) :: rest ->
  StronglySorted by_deadline (timed_tasks_ (sched w)) ->
  exists w',
    run_one_step cl fuel w = Some (true, w')
    /\ now (sched w') = d
    /\ ready_tasks_ (sched w')
       = snd <$> filter (fun e => fst e = d) (timed_tasks_ (sched w))
    /\ timed_tasks_ (sched w')
       = filter (fun e => (d < fst e)%Z) (timed_tasks_ (sched w))
    /\ event_handlers_ (sched w') = event_handlers_ (sched w)
    /\ mem w' = mem w.
Proof.
  intros Hr Ht Hs. unfold run_one_step. rewrite Hr, Ht.
  eexists. split; [reflexivity|].
  unfold on_sched, fire_timers. rewrite Ht.
  cbn [sched mem set_time timed_tasks_ ready_tasks_ current_time_].
  rewrite Ht, Hr. rewrite Ht in Hs.
  rewrite (migrate_due_sorted d ((d, h) :: rest) Hs).
  2:{ inversion Hs as [|? ? _ Hall]; subst. constructor; [simpl; lia|].
      eapply Forall_impl; [exact Hall|]. intros [t v]. unfold by_deadline.
      simpl. lia. }
  simpl. auto.
Qed.

(** *** The ready queue *)






(** *** The clock and the result of [run_one_step] *)

(** Under client code that calls neither [set_time] nor [advance_time],
    whatever delays it takes, [run_one_step] moves the clock only when the
    ready queue is empty and a timer is pending, and then to the earliest
    deadline exactly; it returns [false] only when there is neither a
    ready task nor a timer (subscriptions do not count), and has then done
    nothing. *)
Theorem run_one_step_clock (cl : Client) (fuel : nat) (w w' : Machine)
  (b : bool) :
  client_calls no_clock_calls cl ->
  run_one_step cl fuel w = Some (b, w') ->
  now (sched w')
  = match ready_tasks_ (sched w), timed_tasks_ (sched w) with
    | [], (d, _) :: _ => d
    | _, _ => now (sched w)
    end
  /\ b = negb (is_nil (ready_tasks_ (sched w))
               && is_nil (timed_tasks_ (sched w)))
  /\ (b = false -> w' = w).
Proof.
  intros Hcl. unfold run_one_step.
  destruct (ready_tasks_ (sched w)) as [|h rest] eqn:Er.
  - destruct (timed_tasks_ (sched w)) as [|[d h] l] eqn:Et; intros [= <- <-].
    + auto.
    + split; [|split; [reflexivity | discriminate]].
      unfold on_sched, fire_timers. rewrite Et. simpl.
      destruct (migrate_due _ _ _). reflexivity.
  - destruct (done cl h _).
    + intros [= <- <-]. split; [reflexivity|].
      split; [reflexivity | discriminate].
    + destruct (exec cl fuel _ _) as [w2|] eqn:Ex; intros [= <- <-].
      apply exec_keeps_clock in Ex as [E _]; [|exact Hcl|apply Hcl].
      split; [exact E|]. split; [reflexivity | discriminate].
Qed.

(** *** Events *)

(** Erasing an empty range leaves the map as it is. *)
Lemma erase_range_none (id : EventId) (s : Scheduler) :
  equal_range id s = [] -> erase_range id s = s.
Proof.
  unfold equal_range, erase_range, set_handlers. intros E.
  apply fmap_nil_inv in E. destruct s as [t r tm hs]. simpl in *. f_equal.
  induction hs as [|e hs IH]; [reflexivity|].
  destruct (N.eqb (@fst N (sink handler) e) id) eqn:Ek.
  - rewrite filter_cons_True in E by (simpl; rewrite Ek; exact I).
    discriminate.
  - rewrite filter_cons_False in E by (simpl; rewrite Ek; tauto).
    rewrite filter_cons_True by (simpl; rewrite Ek; exact I).
    f_equal. apply IH, E.
Qed.

(** An event nobody waits for is dropped: [trigger_event] returns at once
    (no client code runs) and the scheduler (the subscriptions to other
    events included) and the client's memory are unchanged. *)
Theorem trigger_event_no_subscriber (cl : Client) (fuel : nat) (id : EventId)
  (data : option payload) (w : Machine) :
  equal_range id (sched w) = [] ->
  exists w',
    trigger_event cl fuel id data w = Some w'
    /\ sched w' = sched w /\ mem w' = mem w /\ log w' = log w.
Proof.
  intros E. unfold trigger_event, trigger_event_with. rewrite E. simpl.
  eexists. split; [reflexivity|]. simpl.
  rewrite (erase_range_none id (sched w) E). auto.
Qed.

Lemma fire_timers_head (s : Scheduler) (d : time_point) (h : handle)
  (rest : list (time_point * handle)) :
  timed_tasks_ s = (d, h) :: rest -> now (fire_timers s) = d.
Proof.
  intros E. unfold fire_timers. rewrite E. simpl.
  destruct (migrate_due _ _ _). reflexivity.
Qed.

(** The loop of [run_until] does nothing when the clock has reached
    [end_time]; otherwise it never takes the clock beyond [end_time],
    leaves the ready queue empty, and leaves no timer that is due before
    [end_time]. *)
Lemma run_until_loop_post (cl : Client) (fuel : nat) (end_time : time_point) :
  client_calls no_clock_calls cl ->
  forall w w' : Machine,
    StronglySorted by_deadline (timed_tasks_ (sched w)) ->
    run_until_loop cl fuel end_time w = Some w' ->
    ((end_time <= now (sched w))%Z -> w' = w)
    /\ ((now (sched w) < end_time)%Z ->
        (now (sched w') <= end_time)%Z
        /\ ready_tasks_ (sched w') = []
        /\ Forall (fun e => (end_time <= fst e)%Z) (timed_tasks_ (sched w'))).
Proof.
  intros Hcl. induction fuel as [|n IH]; intros w w' Hs; simpl; [discriminate|].
  destruct (Z.ltb_spec (now (sched w)) end_time) as [Hlt|Hge]; simpl.
  2:{ intros [= <-]. split; [reflexivity | lia]. }
  destruct (is_nil (ready_tasks_ (sched w)) && is_nil (timed_tasks_ (sched w)))
    eqn:Ework; simpl.
  { intros [= <-]. split; [lia|]. intros _.
    apply andb_true_iff in Ework as [Er Et].
    destruct (ready_tasks_ (sched w)); [|discriminate].
    destruct (timed_tasks_ (sched w)); [|discriminate].
    split; [lia|]. split; [reflexivity | constructor]. }
  destruct (drain_ready cl n w) as [w1|] eqn:Ed; [|discriminate].
  apply (drain_ready_clock cl n Hcl) in Ed as (E1 & E2 & E3).
  specialize (E2 Hs).
  assert (Hs1 := E2).
  destruct (timed_tasks_ (sched w1)) as [|[next h1] rest] eqn:Et1.
  - intros E. rewrite <- Et1 in E2.
    destruct (IH w1 w' E2 E) as [_ H]. rewrite E1 in H.
    split; [lia | exact H].
  - destruct (Z.leb_spec end_time next) as [Hle|Hgt].
    + intros [= <-]. split; [lia|]. intros _.
      split; [unfold now; simpl; lia|]. split; [exact E3|].
      simpl. rewrite Et1.
      inversion Hs1 as [|? ? _ Hall]; subst. constructor; [simpl; lia|].
      eapply Forall_impl; [exact Hall|]. intros [t v]. unfold by_deadline.
      simpl. lia.
    + intros E.
      pose proof (fire_timers_head (sched w1) next h1 rest Et1) as Hn.
      rewrite <- Et1 in E2.
      destruct (IH (on_sched fire_timers w1) w' (fire_timers_sorted _ E2) E)
        as [_ H].
      simpl in H. rewrite Hn in H. split; [lia|]. intros _. apply H, Hgt.
Qed.

(** Under client code that calls neither [set_time] nor [advance_time],
    whatever delays it takes, [run_until] returns with the clock at
    [end_time] exactly, or where it was if that is later; every timer
    still pending is due at [end_time] or after; and if the clock was
    before [end_time], the ready queue is empty. *)
Theorem run_until_reaches_end_time (cl : Client) (fuel : nat)
  (end_time : time_point) (w w' : Machine) :
  client_calls no_clock_calls cl -> timers_ok (sched w) ->
  run_until cl fuel end_time w = Some w' ->
  now (sched w') = Z.max (now (sched w)) end_time
  /\ Forall (fun e => (end_time <= fst e)%Z) (timed_tasks_ (sched w'))
  /\ ((now (sched w) < end_time)%Z -> ready_tasks_ (sched w') = []).
Proof.
  intros Hcl [Hs Hf]. unfold run_until.
  destruct (run_until_loop cl fuel end_time w) as [w1|] eqn:E; [|discriminate].
  destruct (run_until_loop_post cl fuel end_time Hcl w w1 Hs E) as [P1 P2].
  destruct (Z.lt_ge_cases (now (sched w)) end_time) as [Hw|Hw].
  - destruct (P2 Hw) as (Q1 & Q2 & Q3).
    destruct (Z.ltb_spec (now (sched w1)) end_time) as [Hlt|Hge];
      intros [= <-].
    + split; [unfold now in *; simpl; lia|]. split; [exact Q3|].
      intros _. exact Q2.
    + split; [lia|]. split; [exact Q3|]. intros _. exact Q2.
  - rewrite (P1 Hw).
    destruct (Z.ltb_spec (now (sched w)) end_time) as [Hlt|Hge]; [lia|].
    intros [= <-]. split; [lia|]. split; [|lia].
    eapply Forall_impl; [exact Hf|]. intros e He. simpl in He. lia.
Qed.

(** *** One-shot subscriptions *)

Lemma one_shot_inv_same (P : list nat) (w w' : Machine) :
  event_handlers_ (sched w') = event_handlers_ (sched w) ->
  log w' = log w -> next_sink w' = next_sink w ->
  one_shot_inv P w -> one_shot_inv P w'.
Proof.
  intros Eh El En. unfold one_shot_inv, subscribed, invoked.
  rewrite Eh, El, En. auto.
Qed.

Lemma keeps_one_shot_same (w w' : Machine) :
  event_handlers_ (sched w') = event_handlers_ (sched w) ->
  log w' = log w -> next_sink w' = next_sink w ->
  keeps_one_shot w w'.
Proof. intros Eh El En P. apply one_shot_inv_same; assumption. Qed.

(** A new subscription gets an identity no node has had. *)
Lemma keeps_one_shot_register (w : Machine) (id : EventId) (f : handler) :
  keeps_one_shot w (do_register id f w).
Proof.
  intros P [Hnd Hlt]. unfold one_shot_inv, subscribed, invoked in *. simpl.
  rewrite multimap_emplace_Permutation. rewrite fmap_cons. simpl.
  rewrite <- Permutation_middle. split.
  - constructor; [|exact Hnd]. intros Hin.
    rewrite Forall_forall in Hlt. apply Hlt in Hin. lia.
  - constructor; [lia|]. eapply Forall_impl; [exact Hlt|].
    intros n Hn. simpl in Hn. lia.
Qed.

(** The snapshot of [trigger_event] and what it leaves in the map are the
    map it found. *)
Lemma subscribed_split (id : EventId) (s : Scheduler) :
  (fun e => sink_id (snd e)) <$> event_handlers_ s
  ≡ₚ (sink_id <$> equal_range id s)
     ++ ((fun e => sink_id (snd e)) <$> event_handlers_ (erase_range id s)).
Proof.
  unfold equal_range, erase_range. simpl.
  induction (event_handlers_ s) as [|e hs IH]; [reflexivity|].
  destruct (N.eqb (@fst N (sink handler) e) id) eqn:Ek.
  - rewrite filter_cons_True by (simpl; rewrite Ek; exact I).
    rewrite (filter_cons_False
               (fun kv : N * sink handler => negb (N.eqb (fst kv) id)))
      by (simpl; rewrite Ek; tauto).
    rewrite !fmap_cons. simpl. constructor. exact IH.
  - rewrite filter_cons_False by (simpl; rewrite Ek; tauto).
    rewrite (filter_cons_True
               (fun kv : N * sink handler => negb (N.eqb (fst kv) id)))
      by (simpl; rewrite Ek; exact I).
    rewrite !fmap_cons. rewrite <- Permutation_middle. constructor. exact IH.
Qed.

(** The loop over the snapshot: each sink called leaves the nodes to call
    for the nodes called. *)
Lemma call_handlers_one_shot (run : prog -> Machine -> option Machine)
  (body : handler -> prog) (c : nat) :
  (forall f y y', run (body f) y = Some y' -> keeps_one_shot y y') ->
  forall (hs : list (sink handler)) (x x' : Machine),
    call_handlers run body c hs x = Some x' ->
    forall P, one_shot_inv (P ++ (sink_id <$> hs)) x -> one_shot_inv P x'.
Proof.
  intros Hrun. induction hs as [|s hs IH]; intros x x'; simpl.
  - intros [= <-] P. rewrite app_nil_r. auto.
  - destruct (run _ _) as [x1|] eqn:E1; [|discriminate]. intros He P Hinv.
    apply (IH _ _ He). apply (Hrun _ _ _ E1).
    destruct Hinv as [Hnd Hlt].
    unfold one_shot_inv, subscribed, invoked in *. simpl.
    rewrite fmap_app. simpl.
    assert (Eq : (P ++ (sink_id <$> hs))
                 ++ ((fun e => sink_id (snd e)) <$> event_handlers_ (sched x))
                 ++ ((fun i => sink_id (inv_sink i)) <$> log x) ++ [sink_id s]
                 ≡ₚ (P ++ sink_id s :: (sink_id <$> hs))
                    ++ ((fun e => sink_id (snd e)) <$> event_handlers_ (sched x))
                    ++ ((fun i => sink_id (inv_sink i)) <$> log x)).
    { rewrite <- (Permutation_middle P).
      rewrite (Permutation_app_comm _ [sink_id s]). simpl.
      rewrite <- !Permutation_middle. reflexivity. }
    rewrite Eq. split; assumption.
Qed.

Lemma exec_keeps_one_shot (cl : Client) (fuel : nat) (p : prog)
  (w w' : Machine) :
  exec cl fuel p w = Some w' -> keeps_one_shot w w'.
Proof.
  revert p w w'.
  assert (Hrefl : forall w : Machine, keeps_one_shot w w).
  { intros w P H. exact H. }
  assert (Htrans : forall w1 w2 w3 : Machine,
             keeps_one_shot w1 w2 -> keeps_one_shot w2 w3 ->
             keeps_one_shot w1 w3).
  { intros w1 w2 w3 H1 H2 P H. apply H2, H1, H. }
  assert (H : forall p w w', prog_calls (fun _ => True) p ->
                             exec cl fuel p w = Some w' -> keeps_one_shot w w').
  { apply (exec_ind cl (fun _ => True) keeps_one_shot (client_calls_True cl)
             Hrefl Htrans).
    - intros w h _. apply keeps_one_shot_same; reflexivity.
    - intros w d h _. apply keeps_one_shot_same; reflexivity.
    - intros w id f _. apply keeps_one_shot_register.
    - intros w t _. apply keeps_one_shot_same; reflexivity.
    - intros w d _. apply keeps_one_shot_same; reflexivity.
    - intros w m. apply keeps_one_shot_same; reflexivity.
    - intros run id data w w' _ Hrun Ht P Hinv.
      unfold trigger_event_with in Ht.
      apply (call_handlers_one_shot run _ _
               (fun f y y' => Hrun _ y y' (prog_calls_True _)) _ _ _ Ht P).
      destruct Hinv as [Hnd Hlt].
      unfold one_shot_inv, subscribed, invoked in *. simpl.
      rewrite (subscribed_split id (sched w)) in Hnd, Hlt.
      rewrite <- !app_assoc in Hnd, Hlt |- *. split; assumption. }
  intros p w w'. apply H, prog_calls_True.
Qed.

Lemma run_one_step_one_shot (cl : Client) (fuel : nat) (w w' : Machine)
  (b : bool) :
  run_one_step cl fuel w = Some (b, w') -> keeps_one_shot w w'.
Proof.
  unfold run_one_step.
  destruct (ready_tasks_ (sched w)) as [|h rest].
  - destruct (timed_tasks_ (sched w)); intros [= <- <-].
    + intros P H. exact H.
    + apply keeps_one_shot_same; [|reflexivity|reflexivity].
      simpl. apply fire_timers_handlers.
  - destruct (done cl h _).
    + intros [= <- <-]. apply keeps_one_shot_same; reflexivity.
    + destruct (exec cl fuel _ _) as [w2|] eqn:Ex; intros [= <- <-].
      intros P H. apply (exec_keeps_one_shot _ _ _ _ _ Ex).
      revert H. apply one_shot_inv_same; reflexivity.
Qed.

Lemma drive_one_shot (cl : Client) (fuel : nat)
  (acts : list (action payload handle handler M)) :
  forall (w : Machine) (ws : list Machine),
    one_shot_inv [] w -> drive cl fuel acts w = Some ws ->
    Forall (one_shot_inv []) ws.
Proof.
  induction acts as [|a acts IH]; intros w ws Hf; simpl.
  - intros [= <-]. constructor.
  - destruct (perform cl fuel a w) as [w1|] eqn:Ep; [|discriminate].
    destruct (drive cl fuel acts w1) as [ws1|] eqn:Ed; [|discriminate].
    intros [= <-].
    assert (Hf1 : one_shot_inv [] w1).
    { destruct a as [|p]; simpl in Ep.
      - destruct (run_one_step cl fuel w) as [[b w2]|] eqn:Es; [|discriminate].
        injection Ep as <-. eapply run_one_step_one_shot; eauto.
      - eapply exec_keeps_one_shot; eauto. }
    constructor; [exact Hf1 | exact (IH w1 ws1 Hf1 Ed)].
Qed.

(** Subscriptions are one-shot over a whole run: from a fresh scheduler,
    whatever the owner and the client code do, no subscription (a node of
    [event_handlers_]) has its sink called twice, and a subscription that
    is still in the map has never been called. *)
Theorem subscriptions_are_one_shot (cl : Client) (fuel : nat)
  (acts : list (action payload handle handler M)) (m : M)
  (ws : list Machine) :
  drive cl fuel acts (Machine_new m) = Some ws ->
  Forall (fun w => NoDup (invoked w)
                   /\ NoDup (subscribed w)
                   /\ forall n, n ∈ subscribed w -> n ∉ invoked w) ws.
Proof.
  intros Hd.
  assert (H0 : one_shot_inv [] (Machine_new m : Machine)).
  { split; constructor. }
  pose proof (drive_one_shot cl fuel acts _ ws H0 Hd) as H.
  eapply Forall_impl; [exact H|].
  intros w [Hnd _]. simpl in Hnd. apply NoDup_app in Hnd as (H1 & H2 & H3).
  auto.
Qed.

(** *** The order of the subscriptions *)

Lemma multimap_emplace_by_event_id {V : Type} (id : EventId) (f : V)
  (l : list (EventId * V)) :
  StronglySorted by_event_id l ->
  StronglySorted by_event_id (multimap_emplace N.leb id f l).
Proof.
  induction 1 as [|[k v] l Hs IH Hall]; simpl.
  - repeat constructor.
  - destruct (N.leb_spec k id) as [Hle|Hlt].
    + constructor; [exact IH|].
      apply Forall_multimap_emplace. split; [exact Hle | exact Hall].
    + constructor; [constructor; assumption|].
      constructor; [unfold by_event_id; simpl; lia|].
      eapply Forall_impl; [exact Hall|].
      intros [k' v']. unfold by_event_id. simpl. lia.
Qed.

Lemma filter_multimap_emplace {V : Type} (id id' : N) (f : V)
  (l : list (N * V)) :
  StronglySorted by_event_id l ->
  filter (fun kv : N * V => N.eqb (fst kv) id') (multimap_emplace N.leb id f l)
  = filter (fun kv : N * V => N.eqb (fst kv) id') l
    ++ (if N.eqb id id' then [(id, f)] else []).
Proof.
  induction 1 as [|[k v] l Hs IH Hall]; cbn [multimap_emplace].
  - rewrite filter_cons. simpl. destruct (N.eqb id id'); reflexivity.
  - destruct (N.leb_spec k id) as [Hle|Hlt].
    + rewrite !(filter_cons _ (k, v)).
      destruct (decide _); [rewrite <- app_comm_cons; f_equal|]; exact IH.
    + rewrite (filter_cons _ (id, f)). simpl fst.
      destruct (N.eqb_spec id id') as [<-|Hne].
      * rewrite decide_True by exact I.
        rewrite (filter_none (fun kv : N * V => N.eqb (fst kv) id));
          [reflexivity|].
        constructor.
        { simpl. intros E. apply Is_true_true, N.eqb_eq in E. lia. }
        eapply Forall_impl; [exact Hall|].
        intros [k' v']. unfold by_event_id. simpl. intros Hk E.
        apply Is_true_true, N.eqb_eq in E. lia.
      * rewrite decide_False by (intros []). rewrite app_nil_r. reflexivity.
Qed.

(** A new subscription goes behind the subscriptions already made for the
    same event, which [trigger_event] calls in that order, and changes the
    subscriptions of no other event (the map is in the order of the event
    identifiers, as a [std::multimap] is). *)
Theorem register_event_handler_order (id : EventId) (f : sink handler)
  (s : Scheduler) :
  StronglySorted by_event_id (event_handlers_ s) ->
  equal_range id (register_event_handler id f s) = equal_range id s ++ [f]
  /\ (forall id', id' <> id ->
        equal_range id' (register_event_handler id f s) = equal_range id' s)
  /\ StronglySorted by_event_id
       (event_handlers_ (register_event_handler id f s)).
Proof.
  intros Hs. unfold equal_range. simpl. split; [|split].
  - pose proof (filter_multimap_emplace id id f _ Hs) as E.
    rewrite N.eqb_refl in E.
    etransitivity; [exact (f_equal (fmap snd) E)|].
    rewrite fmap_app. reflexivity.
  - intros id' Hne.
    pose proof (filter_multimap_emplace id id' f _ Hs) as E.
    destruct (N.eqb_spec id id') as [->|_]; [congruence|].
    rewrite app_nil_r in E. exact (f_equal (fmap snd) E).
  - apply multimap_emplace_by_event_id, Hs.
Qed.

End Kernel.

End CoroFacts.

(** ** The scheduler under the sensor and the voltage controller of
    test_model.cpp *)

Module TestModelFacts.
Import Events Coro TestModel CoroFacts.

Lemma test_client_time_safe : client_calls time_safe test_client.
Proof.
  split.
  - intros []; simpl.
    + constructor. intros m. destruct (sensor_pc m) as [|[|n]];
        repeat (constructor; simpl; try lia; try intros ?).
    + constructor. intros m. cbv zeta. destruct (Nat.ltb _ _);
        repeat (constructor; simpl; try lia).
  - intros [] [d|]; simpl; repeat (constructor; simpl; try intros ?).
Qed.

Lemma avc_test_actions_time_safe :
  Forall (action_calls time_safe) (avc_test_setup ++ repeat ARunOneStep 6).
Proof. repeat (constructor; simpl; try lia). Qed.

Lemma test_client_no_clock_calls : client_calls no_clock_calls test_client.
Proof.
  exact (client_calls_weaken time_safe no_clock_calls test_client
           time_safe_no_clock_calls test_client_time_safe).
Qed.

(** The run of [avc_test]: the sensor's three delays end at 10 s, 20 s and
    25 s. *)
Lemma now_is_monotone_witness :
  client_calls time_safe test_client
  /\ Forall (action_calls time_safe) (avc_test_setup ++ repeat ARunOneStep 6)
  /\ exists ws,
       drive test_client 20 (avc_test_setup ++ repeat ARunOneStep 6)
         (Machine_new Memory_init) = Some ws
       /\ (fun x => now (sched x)) <$> ws
          = [0; 0; 10000; 10000; 20000; 20000; 25000; 25000]%Z
       /\ timer_log (List.last ws (Machine_new Memory_init))
          = [(0, 10000); (10000, 10000); (20000, 5000)]%Z
       /\ StronglySorted Z.le
            ((fun x => now (sched x)) <$> (Machine_new Memory_init :: ws)).
Proof.
  split; [exact test_client_time_safe|].
  split; [exact avc_test_actions_time_safe|].
  eexists. split; [vm_compute; reflexivity|].
  split; [vm_compute; reflexivity|].
  assert (L : timer_log
                (List.last
                   (default []
                      (drive test_client 20
                         (avc_test_setup ++ repeat ARunOneStep 6)
                         (Machine_new Memory_init)))
                   (Machine_new Memory_init))
              = [(0, 10000); (10000, 10000); (20000, 5000)]%Z)
    by (vm_compute; reflexivity).
  split; [exact L|].
  apply (now_is_monotone test_client 20
           (avc_test_setup ++ repeat ARunOneStep 6) Memory_init).
  - exact test_client_time_safe.
  - exact avc_test_actions_time_safe.
  - vm_compute. reflexivity.
  - unfold deadlines_representable.
    refine (eq_ind_r (Forall _) _ L).
    repeat constructor; simpl; unfold int64_min, int64_max; lia.
Defined.

(** C3 as stated fails: a coroutine sleeps 1 ms and then for the longest
    duration.  Its second timer is scheduled at [now = 1] with the delay
    [INT64_MAX]; the 64-bit sum is [INT64_MIN], and the next
    [run_one_step] takes the clock from 1 ms back to it. *)
Lemma now_moves_backwards :
  client_calls time_safe sleeper_client
  /\ Forall (action_calls time_safe) sleeper_run
  /\ fmap (M := list) (fun x => now (sched x))
       <$> drive sleeper_client 5 sleeper_run (Machine_new 0)
     = Some [0; 1; 1; int64_min]%Z
  /\ (timer_log <$> (drive sleeper_client 5 sleeper_run (Machine_new 0)
                       ≫= last))
     = Some [(0, 1); (1, int64_max)]%Z
  /\ ~ representable (1 + int64_max)
  /\ ~ StronglySorted Z.le [0; 0; 1; 1; int64_min]%Z.
Proof.
  split.
  { split; [intros h | intros f data; constructor].
    constructor. intros [|pc];
      repeat (constructor; try (simpl; unfold int64_max; lia)). }
  split.
  { unfold sleeper_run. repeat (constructor; try (simpl; lia)). }
  split; [vm_compute; reflexivity|]. split; [vm_compute; reflexivity|].
  split.
  - unfold representable, int64_min, int64_max. lia.
  - intros H. apply StronglySorted_inv in H as [_ H].
    rewrite !Forall_cons in H. unfold int64_min in H. lia.
Qed.

(** The sensor's first delay, shortened to 7 ms, as the only timer. *)
Lemma timer_jump_witness :
  ready_tasks_ (sched one_timer) = []
  /\ timed_tasks_ (sched one_timer) = [(7%Z, Sensor)]
  /\ (now (sched one_timer) < 7)%Z
  /\ exists w',
       run_one_step test_client 0 one_timer = Some (true, w')
       /\ now (sched w') = 7%Z
       /\ ready_tasks_ (sched w') = [Sensor]
       /\ timed_tasks_ (sched w') = []
       /\ event_handlers_ (sched w') = event_handlers_ (sched one_timer)
       /\ mem w' = mem one_timer.
Proof.
  split; [reflexivity|]. split; [reflexivity|]. split; [reflexivity|].
  apply (timer_jump test_client 0 one_timer 7%Z Sensor); reflexivity.
Defined.


(** [avc_test] ends at 30 s with both coroutines completed, the controller
    having received the two voltage events, and nothing left in the
    scheduler. *)
Lemma avc_test_completes :
  exists w,
    avc_test 20 = Some w
    /\ now (sched w) = 30000%Z
    /\ is_empty (sched w) = true
    /\ event_count (mem w) = 2
    /\ event_data_ (mem w) = mkVoltageData 1.01 20000
    /\ is_done test_client (mkTask (Some Sensor)) w = true
    /\ is_done test_client (mkTask (Some Avc)) w = true.
Proof. eexists. split; [vm_compute; reflexivity|]. repeat split. Qed.

(** A task that owns the suspended sensor is not done, and its destructor
    destroys the frame; once detached it reports done and its destructor
    leaves the frame alone. *)
Lemma detach_sensor_task :
  is_done test_client (mkTask (Some Sensor)) avc_waiting = false
  /\ destroyed (mem (Task_destructor test_client (mkTask (Some Sensor))
                       avc_waiting)) = [Sensor]
  /\ is_done test_client (fst (detach (mkTask (Some Sensor)) avc_waiting))
       avc_waiting = true
  /\ destroyed (mem (Task_destructor test_client
                       (fst (detach (mkTask (Some Sensor)) avc_waiting))
                       avc_waiting)) = [].
Proof. repeat split. Qed.

(** *** The queues of the scheduler on the frames of the test *)

Lemma two_timers_sorted :
  StronglySorted by_deadline (timed_tasks_ (sched two_timers)).
Proof.
  let l := eval vm_compute in (timed_tasks_ (sched two_timers)) in
  change (timed_tasks_ (sched two_timers)) with l.
  repeat (constructor; try (unfold by_deadline; simpl; lia)).
Qed.

Lemma three_timers_sorted :
  StronglySorted by_deadline (timed_tasks_ (sched three_timers)).
Proof.
  let l := eval vm_compute in (timed_tasks_ (sched three_timers)) in
  change (timed_tasks_ (sched three_timers)) with l.
  repeat (constructor; try (unfold by_deadline; simpl; lia)).
Qed.

Lemma one_timer_ok : timers_ok (sched one_timer).
Proof.
  unfold timers_ok.
  let l := eval vm_compute in (timed_tasks_ (sched one_timer)) in
  change (timed_tasks_ (sched one_timer)) with l.
  split; repeat (constructor; try (unfold by_deadline, now; simpl; lia)).
Qed.

(** The AVC frame scheduled at 7 ms after the sensor at 7 ms and at 9 ms:
    between the two. *)
Lemma schedule_after_position_witness :
  StronglySorted by_deadline (timed_tasks_ (sched two_timers))
  /\ timed_tasks_ (schedule_after 7%Z Avc (sched two_timers))
     = [(7%Z, Sensor); (7%Z, Avc); (9%Z, Sensor)]
  /\ StronglySorted by_deadline
       (timed_tasks_ (schedule_after 7%Z Avc (sched two_timers))).
Proof.
  split; [exact two_timers_sorted|]. split; [reflexivity|].
  apply (schedule_after_position 7%Z Avc (sched two_timers) two_timers_sorted).
Defined.

(** One step on these three timers: both frames due at 7 ms are readied,
    the sensor first. *)
Lemma run_one_step_fires_earliest_witness :
  ready_tasks_ (sched three_timers) = []
  /\ timed_tasks_ (sched three_timers)
     = [(7%Z, Sensor); (7%Z, Avc); (9%Z, Sensor)]
  /\ exists w',
       run_one_step test_client 0 three_timers = Some (true, w')
       /\ now (sched w') = 7%Z
       /\ ready_tasks_ (sched w') = [Sensor; Avc]
       /\ timed_tasks_ (sched w') = [(9%Z, Sensor)].
Proof.
  split; [reflexivity|]. split; [reflexivity|].
  destruct (run_one_step_fires_earliest test_client 0 three_timers 7%Z Sensor
              [(7%Z, Avc); (9%Z, Sensor)] eq_refl eq_refl three_timers_sorted)
    as (w' & E & Hn & Hr & Ht & _).
  exists w'. split; [exact E|]. split; [exact Hn|].
  split; [rewrite Hr | rewrite Ht]; reflexivity.
Defined.


(** An empty ready queue and a timer at 7 ms: the clock jumps to 7 ms. *)
Lemma run_one_step_clock_witness :
  client_calls no_clock_calls test_client
  /\ exists w',
       run_one_step test_client 0 one_timer = Some (true, w')
       /\ now (sched w') = 7%Z.
Proof.
  split; [exact test_client_no_clock_calls|].
  eexists. split; [vm_compute; reflexivity|].
  apply (run_one_step_clock test_client 0 one_timer _ true
           test_client_no_clock_calls).
  vm_compute. reflexivity.
Defined.

(** [BREAKER_OPENED_EVENT] while only the AVC coroutine waits, for another
    event. *)
Lemma trigger_event_no_subscriber_witness :
  equal_range BREAKER_OPENED_EVENT (sched avc_waiting) = []
  /\ exists w',
       trigger_event test_client 0 BREAKER_OPENED_EVENT None avc_waiting
       = Some w'
       /\ sched w' = sched avc_waiting
       /\ mem w' = mem avc_waiting
       /\ log w' = log avc_waiting.
Proof.
  split; [reflexivity|].
  apply (trigger_event_no_subscriber test_client 0 BREAKER_OPENED_EVENT None
           avc_waiting).
  reflexivity.
Defined.



(** The sensor alone, from its timer at 7 ms, run until 30 s. *)
Lemma run_until_reaches_end_time_witness :
  client_calls no_clock_calls test_client
  /\ timers_ok (sched one_timer)
  /\ exists w',
       run_until test_client 20 30000%Z one_timer = Some w'
       /\ now (sched w') = 30000%Z
       /\ ready_tasks_ (sched w') = []
       /\ Forall (fun e => (30000 <= fst e)%Z) (timed_tasks_ (sched w')).
Proof.
  split; [exact test_client_no_clock_calls|]. split; [exact one_timer_ok|].
  destruct (run_until test_client 20 30000%Z one_timer) as [w'|] eqn:E;
    [|vm_compute in E; discriminate].
  exists w'. split; [reflexivity|].
  destruct (run_until_reaches_end_time test_client 20 30000%Z one_timer w'
              test_client_no_clock_calls one_timer_ok E)
    as (Hn & Ht & Hr).
  split; [rewrite Hn; reflexivity|]. split; [|exact Ht].
  apply Hr. reflexivity.
Defined.

(** [avc_test], six steps: the two subscriptions of the AVC coroutine were
    called once each. *)
Lemma subscriptions_are_one_shot_witness :
  exists ws,
    drive test_client 20 (avc_test_setup ++ repeat ARunOneStep 6)
      (Machine_new Memory_init) = Some ws
    /\ invoked (List.last ws (Machine_new Memory_init)) = [0; 1]
    /\ Forall (fun w : Machine Frame Handler Memory =>
                 NoDup (invoked w)
                 /\ NoDup (subscribed w)
                 /\ forall n, n ∈ subscribed w -> n ∉ invoked w) ws.
Proof.
  eexists. split; [vm_compute; reflexivity|]. split; [vm_compute; reflexivity|].
  apply (subscriptions_are_one_shot test_client 20
           (avc_test_setup ++ repeat ARunOneStep 6) Memory_init).
  vm_compute. reflexivity.
Defined.

(** A second subscription to the voltage event while the AVC coroutine
    waits for it. *)
Lemma register_event_handler_order_witness :
  StronglySorted by_event_id (event_handlers_ (sched avc_waiting))
  /\ equal_range VOLTAGE_CHANGE_EVENT
       (register_event_handler VOLTAGE_CHANGE_EVENT (mkSink 1 AvcAwaiter)
          (sched avc_waiting))
     = [mkSink 0 AvcAwaiter; mkSink 1 AvcAwaiter].
Proof.
  assert (H : StronglySorted by_event_id (event_handlers_ (sched avc_waiting)))
    by (repeat constructor).
  split; [exact H|].
  apply (register_event_handler_order VOLTAGE_CHANGE_EVENT
           (mkSink 1 AvcAwaiter) (sched avc_waiting) H).
Defined.

End TestModelFacts.
